(** * FAQ matching engine: rule-based, semantic and hybrid chatbots

    A shallow embedding of [rule_based_engine.py] and [nlp_engine.py],
    with the substring bot of [rule_bot.py] and the chat log of
    [logger.py].

    Modelling conventions.
    - A Python [str] is a [string]; its characters are the code points
      U+0000..U+00FF, on which [str.lower], the [re] classes [\w] and [\s]
      and [str.isspace] are tabulated below.
    - A Python [float] score is an exact rational ([Q]); a comparison of
      floats is the comparison of these rationals.  The two products that
      the hybrid engine compares with each other are rounded as the
      machine rounds them: [Float.mul] is the product of two floats in
      IEEE 754 binary64.
    - A Python [set] of strings is a [gset string], the [dict] keyword index
      a [gmap string (list nat)].  The order in which [list(some_set)]
      enumerates a set of indices is left open by the language: it is a
      field of the class [SetOrder], and the layout of CPython's hash table
      is one instance of it.
    - [self.faqs[idx]] can raise [IndexError]: list lookups return [option].
    - The sentence-transformer model is an external collaborator: the type
      of embeddings, [encode] and the similarity of two embeddings are the
      fields of the class [Embedder].
    - [f"{score:.2%}"] is a parameter [format_percent]. *)

From Stdlib Require Import QArith Qminmax Qround Qpower Lia Lqa.
From Stdlib Require Import Ascii String DecimalString.
From stdpp Require Import gmap strings list sorting.

#[local] Set Warnings "-clear-no-such-hyp".

Local Open Scope N_scope.

(** ** Characters *)

Module Char.

Definition ord (c : ascii) : N := N_of_ascii c.
Definition chr (n : N) : ascii := ascii_of_N n.

Definition between (lo hi n : N) : bool := (lo <=? n) && (n <=? hi).

(** [str.isspace] and the class [\s] of [re] on a [str] pattern. *)
Definition isspace (c : ascii) : bool :=
  let n := ord c in
  between 9 13 n || between 28 32 n || (n =? 133) || (n =? 160).

(** The class [\w] of [re] on a [str] pattern: alphanumeric or [_]. *)
Definition isword (c : ascii) : bool :=
  let n := ord c in
  between 48 57 n || between 65 90 n || (n =? 95) || between 97 122 n
  || (n =? 170) || between 178 179 n || (n =? 181) || between 185 186 n
  || between 188 190 n || between 192 214 n || between 216 246 n
  || between 248 255 n.

(** [str.lower] on one character. *)
Definition lower (c : ascii) : ascii :=
  let n := ord c in
  if between 65 90 n || between 192 214 n || between 216 222 n
  then chr (n + 32) else c.

Definition question_mark : ascii := chr 63.
Definition space : ascii := chr 32.

End Char.

Local Close Scope N_scope.

(** ** Strings as Python uses them *)

Module Str.

Fixpoint map (f : ascii → ascii) (s : string) : string :=
  match s with
  | EmptyString => EmptyString
  | String c s' => String (f c) (map f s')
  end.

Definition lower : string → string := map Char.lower.

Fixpoint lstrip (s : string) : string :=
  match s with
  | EmptyString => EmptyString
  | String c s' => if Char.isspace c then lstrip s' else s
  end.

Definition rstrip (s : string) : string :=
  String.rev (lstrip (String.rev s)).

(** [s.strip()] *)
Definition strip (s : string) : string := rstrip (lstrip s).

(** [s.split()]: the maximal runs of non-whitespace characters.  [cur] is
    the run being read, last character first. *)
Fixpoint split_from (cur : string) (s : string) : list string :=
  match s with
  | EmptyString =>
      match cur with EmptyString => [] | _ => [String.rev cur] end
  | String c s' =>
      if Char.isspace c
      then match cur with
           | EmptyString => split_from EmptyString s'
           | _ => String.rev cur :: split_from EmptyString s'
           end
      else split_from (String c cur) s'
  end.

Definition split : string → list string := split_from EmptyString.

(** [re.sub(r'[^\w\s\?]', ' ', s)] *)
Definition sub_punct : string → string :=
  map (fun c =>
         if Char.isword c || Char.isspace c
            || bool_decide (c = Char.question_mark)
         then c else Char.space).

(** [re.sub(r'\s+', ' ', s)]: each maximal run of whitespace becomes one
    space; [in_run] tells that the previous character was whitespace. *)
Fixpoint sub_spaces_from (in_run : bool) (s : string) : string :=
  match s with
  | EmptyString => EmptyString
  | String c s' =>
      if Char.isspace c
      then if in_run then sub_spaces_from true s'
           else String Char.space (sub_spaces_from true s')
      else String c (sub_spaces_from false s')
  end.

Definition sub_spaces : string → string := sub_spaces_from false.

Definition to_list : string → list ascii := list_ascii_of_string.

End Str.

(** ** TextNormalizer: [_preprocess_text] and [_extract_keywords] *)

Definition _preprocess_text (text : string) : string :=
  let text := Str.lower text in
  let text := Str.sub_punct text in
  Str.strip (Str.sub_spaces text).

Definition stop_words : gset string :=
  list_to_set
    [ "a"; "an"; "and"; "are"; "as"; "at"; "be"; "by"; "for"; "from";
      "has"; "he"; "in"; "is"; "it"; "its"; "of"; "on"; "that"; "the";
      "to"; "was"; "will"; "with"; "i"; "you"; "can"; "do"; "how";
      "what"; "when"; "where"; "which"; "who"; "why"; "my"; "me" ].

Definition is_keyword (word : string) : bool :=
  bool_decide (word ∉ stop_words) && bool_decide (2 < String.length word).

Definition _extract_keywords (text : string) : gset string :=
  let words := Str.split (_preprocess_text text) in
  list_to_set (filter (fun word => is_keyword word = true) words).

(** ** Corpus entries *)

Record faq : Type := Faq {
  question : string;
  answer : string;
  category : string
}.

(** ** Iteration over Python sets

    The language does not fix the order in which a [set] is enumerated.  A
    set of keywords is enumerated in some order of its elements; a set of
    indices is given by the sequence of its insertions, which is what
    decides the layout of the table, and [list(candidates)] is some
    enumeration without repetition of what was inserted. *)

Class SetOrder : Type := {
  iter_keywords : gset string → list string;
  iter_keywords_perm : ∀ s, iter_keywords s ≡ₚ elements s;
  list_of_set : list nat → list nat;
  list_of_set_NoDup : ∀ ins, NoDup (list_of_set ins);
  list_of_set_elem : ∀ ins x, x ∈ list_of_set ins ↔ x ∈ ins
}.

(** ** KeywordIndex: [_build_keyword_index] *)

(** The body of the loop over the keywords of entry [i]. *)
Definition register (i : nat) (index : gmap string (list nat))
    (keyword : string) : gmap string (list nat) :=
  let index :=
    match index !! keyword with
    | None => <[keyword := []]> index
    | Some _ => index
    end in
  alter (fun ids => ids ++ [i]) keyword index.

Definition register_all (i : nat) (keywords : list string)
    (index : gmap string (list nat)) : gmap string (list nat) :=
  foldl (register i) index keywords.

(** [for i, faq in enumerate(faqs)], counting from [i]. *)
Fixpoint build_from `{SetOrder} (i : nat) (faqs : list faq)
    (index : gmap string (list nat)) : gmap string (list nat) :=
  match faqs with
  | [] => index
  | f :: faqs' =>
      build_from (S i) faqs'
        (register_all i (iter_keywords (_extract_keywords (question f))) index)
  end.

Definition _build_keyword_index `{SetOrder} (faqs : list faq)
    : gmap string (list nat) :=
  build_from 0 faqs ∅.

(** ** [difflib.SequenceMatcher(None, a, b).ratio()]

    The matcher is built without a junk predicate and with [autojunk] left
    at its default, so the set of junk elements is empty and only the
    "popular" elements of a long [b] are dropped from [b2j]. *)

Module Difflib.

Definition block : Type := nat * nat * nat.

(** [__chain_b]: [b2j] maps each element of [b] to the increasing list of
    its positions. *)
Definition chain_step (b2j : gmap ascii (list nat)) (ie : nat * ascii)
    : gmap ascii (list nat) :=
  <[ie.2 := default [] (b2j !! ie.2) ++ [ie.1]]> b2j.

Definition chain_all (b : list ascii) : gmap ascii (list nat) :=
  foldl chain_step ∅ (imap pair b).

Definition chain_b (b : list ascii) : gmap ascii (list nat) :=
  let b2j := chain_all b in
  let n := length b in
  if bool_decide (200 ≤ n)
  then let ntest := n `div` 100 + 1 in
       filter (fun kv => ¬ (ntest < length kv.2)) b2j
  else b2j.

Section Matcher.

Variables a b : list ascii.

Let b2j := chain_b b.

(** [a[i] == b[j]] for positions inside both sequences. *)
Definition same (i j : nat) : bool :=
  match a !! i, b !! j with
  | Some x, Some y => bool_decide (x = y)
  | _, _ => false
  end.

(** [j2len.get(j-1, 0)] *)
Definition get_pred (j2len : gmap nat nat) (j : nat) : nat :=
  match j with
  | 0 => 0
  | S j' => default 0 (j2len !! j')
  end.

(** The loop [for j in b2j.get(a[i], nothing)] with its [continue] and
    [break]. *)
Fixpoint scan_row (i blo bhi : nat) (j2len : gmap nat nat)
    (js : list nat) (newj2len : gmap nat nat) (best : block)
    : gmap nat nat * block :=
  match js with
  | [] => (newj2len, best)
  | j :: js' =>
      if j <? blo then scan_row i blo bhi j2len js' newj2len best
      else if bhi <=? j then (newj2len, best)
      else
        let k := get_pred j2len j + 1 in
        let newj2len := <[j := k]> newj2len in
        let best := if best.2 <? k then (S i - k, S j - k, k) else best in
        scan_row i blo bhi j2len js' newj2len best
  end.

(** One iteration of [for i in range(alo, ahi)]. *)
Definition scan_step (blo bhi : nat) (st : gmap nat nat * block)
    (i : nat) : gmap nat nat * block :=
  let js := from_option (fun c => default [] (b2j !! c)) [] (a !! i) in
  scan_row i blo bhi st.1 js ∅ st.2.

(** [while besti > alo and bestj > blo and a[besti-1] == b[bestj-1]] *)
Fixpoint extend_left (alo blo besti bestj bestsize : nat) : block :=
  match besti, bestj with
  | S i', S j' =>
      if (alo <? besti) && (blo <? bestj) && same i' j'
      then extend_left alo blo i' j' (S bestsize)
      else (besti, bestj, bestsize)
  | _, _ => (besti, bestj, bestsize)
  end.

(** [while besti+bestsize < ahi and bestj+bestsize < bhi and
    a[besti+bestsize] == b[bestj+bestsize]]; [room] is
    [ahi - (besti+bestsize)], the number of iterations left at most. *)
Fixpoint extend_right (room ahi bhi besti bestj bestsize : nat) : nat :=
  match room with
  | 0 => bestsize
  | S room' =>
      if (besti + bestsize <? ahi) && (bestj + bestsize <? bhi)
         && same (besti + bestsize) (bestj + bestsize)
      then extend_right room' ahi bhi besti bestj (S bestsize)
      else bestsize
  end.

(** [find_longest_match(alo, ahi, blo, bhi)].  The two further loops of
    the library extend the block over junk elements only and never run
    here. *)
Definition find_longest_match (alo ahi blo bhi : nat) : block :=
  let '(_, (besti, bestj, bestsize)) :=
    foldl (scan_step blo bhi) (∅, (alo, blo, 0)) (seq alo (ahi - alo)) in
  let '(besti, bestj, bestsize) :=
    extend_left alo blo besti bestj bestsize in
  let bestsize :=
    extend_right (ahi - (besti + bestsize)) ahi bhi besti bestj bestsize in
  (besti, bestj, bestsize).

Definition range : Type := nat * nat * nat * nat.

(** The two pushes onto the work list after a block was found. *)
Definition push_rest (r : range) (m : block) (queue : list range)
    : list range :=
  let '(alo, ahi, blo, bhi) := r in
  let '(i, j, k) := m in
  let queue :=
    if (alo <? i) && (blo <? j) then (alo, i, blo, j) :: queue
    else queue in
  if (i + k <? ahi) && (j + k <? bhi)
  then (i + k, ahi, j + k, bhi) :: queue
  else queue.

(** The loop [while queue] of [get_matching_blocks]; the head of [queue]
    is the end of Python's list, where [pop] and [append] work. *)
Fixpoint blocks_loop (fuel : nat) (queue : list range) (found : list block)
    : list block :=
  match fuel, queue with
  | S fuel', r :: queue' =>
      let '(alo, ahi, blo, bhi) := r in
      let m := find_longest_match alo ahi blo bhi in
      if bool_decide (m.2 = 0) then blocks_loop fuel' queue' found
      else blocks_loop fuel' (push_rest r m queue') (found ++ [m])
  | _, _ => found
  end.

(** Twice the length of a range plus one: what an iteration of the loop
    takes off the work list. *)
Definition weight (r : range) : nat :=
  let '(alo, ahi, _, _) := r in 2 * (ahi - alo) + 1.

Definition work (queue : list range) : nat := sum_list_with weight queue.

Definition found_blocks : list block :=
  let queue := [(0, length a, 0, length b)] in
  blocks_loop (work queue) queue [].

(** [sum(triple[-1] for triple in self.get_matching_blocks())]: sorting
    the blocks, merging adjacent ones and the final sentinel of size 0
    leave the sum as it is. *)
Definition matches : nat := sum_list_with snd found_blocks.

(** [_calculate_ratio(matches, len(a) + len(b))] *)
Definition ratio : Q :=
  let length := (length a + length b)%nat in
  if bool_decide (length = 0%nat) then 1
  else (2 * inject_Z (Z.of_nat matches)) / inject_Z (Z.of_nat length).

End Matcher.

(** A range of the work list lies the right way round. *)
Definition valid (r : range) : Prop :=
  let '(alo, ahi, blo, bhi) := r in alo ≤ ahi ∧ blo ≤ bhi.

(** A block lies inside a range. *)
Definition inside (r : range) (m : block) : Prop :=
  let '(alo, ahi, blo, bhi) := r in
  let '(i, j, k) := m in
  alo ≤ i ∧ i + k ≤ ahi ∧ blo ≤ j ∧ j + k ≤ bhi.

(** What a row [j2len] of the table knows when row [i] is next. *)
Definition row_ok (alo blo i : nat) (j2len : gmap nat nat) : Prop :=
  ∀ j k, j2len !! j = Some k → blo ≤ j ∧ k ≤ S j - blo ∧ k ≤ i - alo.

(** The most that the blocks of a range can add up to. *)
Definition cap (r : range) : nat :=
  let '(alo, ahi, blo, bhi) := r in (ahi - alo) `min` (bhi - blo).

Definition total (found : list block) : nat := sum_list_with snd found.

End Difflib.

(** ** Scores, sorting and slicing *)

Definition Qltb (x y : Q) : bool := negb (Qle_bool y x).

(** [l.sort(key=..., reverse=True)]: the sort is stable, so the result is
    the one of inserting each element in front of the first element of the
    sorted rest whose key is not strictly greater. *)
Section Sort.

Context {A : Type} (key : A → Q).

Fixpoint insert_desc (x : A) (l : list A) : list A :=
  match l with
  | [] => [x]
  | y :: l' =>
      if Qltb (key x) (key y) then y :: insert_desc x l' else x :: l
  end.

Definition sort_desc (l : list A) : list A := foldr insert_desc [] l.

End Sort.

(** [l[:k]] *)
Definition slice_to {A : Type} (l : list A) (k : Z) : list A :=
  if (k <? 0)%Z then take (Z.to_nat (Z.of_nat (length l) + k)) l
  else take (Z.to_nat k) l.

Definition nl : string := String (Char.chr 10) EmptyString.

Definition str_of_nat (n : nat) : string :=
  NilEmpty.string_of_uint (Nat.to_uint n).

(** [for i, q in enumerate(similar_questions, i): response += f"{i}. {q}\n"] *)
Fixpoint numbered (i : nat) (similar_questions : list string) : string :=
  match similar_questions with
  | [] => EmptyString
  | q :: rest =>
      str_of_nat i +:+ ". " +:+ q +:+ nl +:+ numbered (S i) rest
  end.

(** A record of [conversation_history]; the rule-based engine writes no
    ['method'] key. *)
Record interaction : Type := Interaction {
  i_query : string;
  i_response : string;
  i_score : Q;
  i_method : option string
}.

(** ** LexicalScorer *)

Definition _calculate_similarity (text1 text2 : string) : Q :=
  let text1 := _preprocess_text text1 in
  let text2 := _preprocess_text text2 in
  Difflib.ratio (Str.to_list text1) (Str.to_list text2).

Definition _keyword_match_score (query faq_question : string) : Q :=
  let query_keywords := _extract_keywords query in
  let faq_keywords := _extract_keywords faq_question in
  if bool_decide (query_keywords = ∅) then 0
  else
    let intersection := query_keywords ∩ faq_keywords in
    let union := query_keywords ∪ faq_keywords in
    if bool_decide (union = ∅) then 0
    else inject_Z (Z.of_nat (size intersection))
         / inject_Z (Z.of_nat (size union)).

(** The score computed in the loop of [find_best_match]. *)
Definition combined_score (query faq_question : string) : Q :=
  let keyword_score := _keyword_match_score query faq_question in
  let similarity_score := _calculate_similarity query faq_question in
  (6 # 10) * keyword_score + (4 # 10) * similarity_score.

(** ** [class RuleBasedChatbot] *)

Module Rule.

Record t : Type := Bot {
  faqs : list faq;
  threshold : Q;
  conversation_history : list interaction;
  keyword_index : gmap string (list nat)
}.

Definition log (self : t) (r : interaction) : t :=
  {| faqs := faqs self;
     threshold := threshold self;
     conversation_history := conversation_history self ++ [r];
     keyword_index := keyword_index self |}.

Definition clarification : string :=
  "I didn't catch that. Could you please rephrase your question?".

Definition _get_fallback_response (similar_questions : list string)
    : string :=
  let response := "I'm not quite sure about that. " in
  match similar_questions with
  | [] =>
      response
      +:+ "Could you please rephrase your question or try asking something else?"
  | _ =>
      response +:+ "Did you mean to ask about:" +:+ nl
      +:+ numbered 1 similar_questions
      +:+ nl +:+ "Please rephrase your question or try one of these."
  end.

Section Engine.

Context `{SetOrder}.
Variable format_percent : Q → string.

Definition __init__ (faqs : list faq) (threshold : Q) : t :=
  {| faqs := faqs;
     threshold := threshold;
     conversation_history := [];
     keyword_index := _build_keyword_index faqs |}.

(** [candidates.update(self.keyword_index[keyword])], the set being
    the sequence of its insertions. *)
Definition update_candidates (self : t) (candidates : list nat)
    (keyword : string) : list nat :=
  match keyword_index self !! keyword with
  | Some ids => candidates ++ ids
  | None => candidates
  end.

Definition _get_candidate_faqs (self : t) (query : string) : list nat :=
  let query_keywords := _extract_keywords query in
  let candidates :=
    foldl (update_candidates self) [] (iter_keywords query_keywords) in
  match candidates with
  | [] => seq 0 (length (faqs self))
  | _ => list_of_set candidates
  end.

(** The body of [for idx in candidate_indices]; [None] is the
    [IndexError] of [self.faqs[idx]]. *)
Definition score_candidate (self : t) (query : string) (idx : nat)
    : option (faq * Q) :=
  f ← faqs self !! idx;
  Some (f, combined_score query (question f)).

Definition find_best_match (self : t) (query : string) (top_k : Z)
    : option (list (faq * Q)) :=
  let candidate_indices := _get_candidate_faqs self query in
  matches ← mapM (score_candidate self query) candidate_indices;
  Some (slice_to (sort_desc snd matches) top_k).

Definition confidence (score : Q) : string :=
  nl +:+ nl +:+ "(Confidence: " +:+ format_percent score +:+ ")".

Definition get_response (self : t) (query : string)
    (return_confidence : bool) : option (string * t) :=
  if bool_decide (Str.strip query = EmptyString)
  then Some (clarification, self)
  else
    matches ← find_best_match self query 3;
    match matches with
    | [] => Some (_get_fallback_response [], self)
    | (best_match, score) :: _ =>
        let self :=
          log self {| i_query := query;
                      i_response := answer best_match;
                      i_score := score;
                      i_method := None |} in
        if Qltb score (threshold self)
        then Some (_get_fallback_response
                     ((fun m => question m.1) <$> take 2 matches), self)
        else
          let response := answer best_match in
          Some (if return_confidence
                then response +:+ confidence score else response, self)
    end.

Definition clear_history (self : t) : t :=
  {| faqs := faqs self;
     threshold := threshold self;
     conversation_history := [];
     keyword_index := keyword_index self |}.

(** [get_conversation_history] *)
Definition get_conversation_history (self : t) : list interaction :=
  conversation_history self.

(** The queries of a session answered one after the other, as the front
    ends do: the responses in order and the engine at the end. *)
Fixpoint converse (self : t) (queries : list string)
    (return_confidence : bool) : option (list string * t) :=
  match queries with
  | [] => Some ([], self)
  | query :: queries' =>
      r ← get_response self query return_confidence;
      rs ← converse r.2 queries' return_confidence;
      Some (r.1 :: rs.1, rs.2)
  end.

End Engine.

End Rule.

(** ** [class NLPChatbot] *)

(** The embedding provider: [self.model.encode([text])[0]] and the value
    that [_cosine_similarity] computes with numpy for two embeddings. *)
Class Embedder : Type := {
  embedding : Type;
  encode : string → embedding;
  _cosine_similarity : embedding → embedding → Q
}.

Module NLP.

Section Engine.

Context `{Embedder}.
Variable format_percent : Q → string.

Record t : Type := Bot {
  faqs : list faq;
  threshold : Q;
  conversation_history : list interaction;
  faq_embeddings : list embedding
}.

Definition log (self : t) (r : interaction) : t :=
  {| faqs := faqs self;
     threshold := threshold self;
     conversation_history := conversation_history self ++ [r];
     faq_embeddings := faq_embeddings self |}.

(** [_generate_embeddings] *)
Definition _generate_embeddings (faqs : list faq) : list embedding :=
  (fun f => encode (question f)) <$> faqs.

Definition __init__ (faqs : list faq) (threshold : Q) : t :=
  {| faqs := faqs;
     threshold := threshold;
     conversation_history := [];
     faq_embeddings := _generate_embeddings faqs |}.

Definition clarification : string :=
  "I didn't catch that. Could you please ask a question?".

Definition _get_fallback_response (similar_questions : list string)
    : string :=
  let response := "I'm not completely sure about that. " in
  match similar_questions with
  | [] => response +:+ "Could you rephrase your question?"
  | _ =>
      response +:+ "Perhaps you're asking about:" +:+ nl
      +:+ numbered 1 similar_questions
      +:+ nl +:+ "Please rephrase or select one of these questions."
  end.

(** The body of [for i, faq_embedding in enumerate(self.faq_embeddings)];
    [None] is the [IndexError] of [self.faqs[i]]. *)
Definition score_entry (self : t) (query_embedding : embedding)
    (ie : nat * embedding) : option (faq * Q) :=
  f ← faqs self !! ie.1;
  Some (f, _cosine_similarity query_embedding ie.2).

Definition find_best_match (self : t) (query : string) (top_k : Z)
    : option (list (faq * Q)) :=
  let query_embedding := encode query in
  similarities ←
    mapM (score_entry self query_embedding)
         (imap pair (faq_embeddings self));
  Some (slice_to (sort_desc snd similarities) top_k).

Definition confidence (score : Q) : string :=
  nl +:+ nl +:+ "(Confidence: " +:+ format_percent score +:+ ")".

Definition get_response (self : t) (query : string)
    (return_confidence : bool) : option (string * t) :=
  if bool_decide (Str.strip query = EmptyString)
  then Some (clarification, self)
  else
    matches ← find_best_match self query 3;
    match matches with
    | [] => Some (_get_fallback_response [], self)
    | (best_match, score) :: _ =>
        let self :=
          log self {| i_query := query;
                      i_response := answer best_match;
                      i_score := score;
                      i_method := Some "semantic" |} in
        if Qltb score (threshold self)
        then
          let similar_questions :=
            (fun m => question m.1) <$> take 2 matches in
          Some (_get_fallback_response similar_questions, self)
        else
          let response := answer best_match in
          Some (if return_confidence
                then response +:+ confidence score else response, self)
    end.

Definition clear_history (self : t) : t :=
  {| faqs := faqs self;
     threshold := threshold self;
     conversation_history := [];
     faq_embeddings := faq_embeddings self |}.

(** [add_faq_dynamically]: [self.faqs.append(new_faq)], and the embedding
    of the new question becomes the last row of [self.faq_embeddings]
    ([np.vstack]).  What [np.vstack] does with the matrix of an empty
    corpus depends on the shape the provider gives it; the facts below
    are about engines that hold an embedding. *)
Definition add_faq_dynamically (self : t) (new_question new_answer : string)
    (new_category : string) : t :=
  let new_faq := {| question := new_question;
                    answer := new_answer;
                    category := new_category |} in
  let new_embedding := encode new_question in
  {| faqs := faqs self ++ [new_faq];
     threshold := threshold self;
     conversation_history := conversation_history self;
     faq_embeddings := faq_embeddings self ++ [new_embedding] |}.

End Engine.

End NLP.

(** ** [class HybridChatbot]: the arbiter *)

(** ** Floating point: the product of two floats

    [x * y] on two Python floats is the exact product rounded to binary64:
    to the nearest float, to the one with an even significand when two are
    equally near.  A float has 53 significant bits and is a multiple of
    [2^-1074]; from [2^1024] on the rounded product is infinite.  An
    infinite product is only ever compared: it is represented by
    [2^1024], or by [-2^1024], which lies beyond every finite float. *)

Module Float.

Definition two_pow (e : Z) : Q := Qpower 2 e.

(** The integer nearest to [x], the even one of two that are equally
    near. *)
Definition nearest_even (x : Q) : Z :=
  let f := Qfloor x in
  match (x - inject_Z f ?= 1 # 2)%Q with
  | Lt => f
  | Eq => if Z.even f then f else (f + 1)%Z
  | Gt => (f + 1)%Z
  end.

(** For [x > 0]: the [e] with [2^e <= x < 2^(e+1)]. *)
Definition exponent (x : Q) : Z :=
  let e := (Z.log2 (Qnum x) - Z.log2 (Z.pos (Qden x)))%Z in
  if Qle_bool (two_pow e) x then e else (e - 1)%Z.

(** [x > 0] rounded to 53 significant bits, or to a multiple of
    [2^-1074] where it is that small, the exponent not being bounded
    above. *)
Definition rounded (x : Q) : Q :=
  let q := Z.max (exponent x - 52) (-1074) in
  (inject_Z (nearest_even (x / two_pow q)) * two_pow q)%Q.

Definition round_pos (x : Q) : Q :=
  let r := rounded x in
  if Qle_bool (two_pow 1024) r then two_pow 1024 else r.

(** The float nearest to [x]. *)
Definition round (x : Q) : Q :=
  let x := Qred x in
  match (x ?= 0)%Q with
  | Eq => 0%Q
  | Gt => round_pos x
  | Lt => (- round_pos (- x))%Q
  end.

(** [x * y] on the floats [x] and [y]. *)
Definition mul (x y : Q) : Q := round (x * y).

End Float.

Module Hybrid.

Section Engine.

Context `{SetOrder} `{Embedder}.
Variable format_percent : Q → string.

Record t : Type := Bot {
  rule_bot : Rule.t;
  nlp_bot : NLP.t;
  rule_weight : Q;
  nlp_weight : Q;
  conversation_history : list interaction
}.

Definition __init__ (rule_based_bot : Rule.t) (nlp_bot : NLP.t)
    (rule_weight nlp_weight : Q) : t :=
  {| rule_bot := rule_based_bot;
     nlp_bot := nlp_bot;
     rule_weight := rule_weight;
     nlp_weight := nlp_weight;
     conversation_history := [] |}.

(** The defaults [0.3] and [0.7] of [__init__], as floats. *)
Definition default_rule_weight : Q := Float.round (3 # 10).
Definition default_nlp_weight : Q := Float.round (7 # 10).

Definition log (self : t) (r : interaction) : t :=
  {| rule_bot := rule_bot self;
     nlp_bot := nlp_bot self;
     rule_weight := rule_weight self;
     nlp_weight := nlp_weight self;
     conversation_history := conversation_history self ++ [r] |}.

Definition no_answer : string :=
  "I couldn't find a good answer. Please rephrase your question.".

(** [matches[0][1] if matches else 0] *)
Definition top_score (matches : list (faq * Q)) : Q :=
  match matches with
  | m :: _ => m.2
  | [] => 0
  end.

Definition nonempty (matches : list (faq * Q)) : bool :=
  match matches with [] => false | _ => true end.

(** The chain [if ... elif ... else] that picks the method: the entry,
    its unweighted score and the method tag, or nothing. *)
Definition pick (self : t) (rule_matches nlp_matches : list (faq * Q))
    : option (faq * Q * string) :=
  let rule_score := top_score rule_matches in
  let nlp_score := top_score nlp_matches in
  let rule_weighted := Float.mul rule_score (rule_weight self) in
  let nlp_weighted := Float.mul nlp_score (nlp_weight self) in
  if Qltb nlp_weighted rule_weighted && nonempty rule_matches
  then (fun m => (m.1, rule_score, "rule-based")) <$> head rule_matches
  else if nonempty nlp_matches
  then (fun m => (m.1, nlp_score, "semantic")) <$> head nlp_matches
  else None.

Definition confidence (final_score : Q) (method : string) : string :=
  nl +:+ nl +:+ "(Confidence: " +:+ format_percent final_score
  +:+ ", Method: " +:+ method +:+ ")".

Definition get_response (self : t) (query : string)
    (return_confidence : bool) : option (string * t) :=
  rule_matches ← Rule.find_best_match (rule_bot self) query 1;
  nlp_matches ← NLP.find_best_match (nlp_bot self) query 1;
  match pick self rule_matches nlp_matches with
  | None => Some (no_answer, self)
  | Some (best_match, final_score, method) =>
      let self :=
        log self {| i_query := query;
                    i_response := answer best_match;
                    i_score := final_score;
                    i_method := Some method |} in
      let response := answer best_match in
      Some (if return_confidence
            then response +:+ confidence final_score method
            else response, self)
  end.

End Engine.

End Hybrid.

(** ** The table of a CPython [set] of small non-negative integers

    [setobject.c]: open addressing in a table of [mask + 1] slots; the hash
    of such an integer is the integer; a probe looks at up to
    [LINEAR_PROBES] further slots before it jumps; the table grows once it
    is three fifths full.  Nothing is ever deleted from [candidates], so
    [fill] and [used] are one counter. *)

Module CPython.

Definition LINEAR_PROBES : nat := 9.
Definition PERTURB_SHIFT : nat := 5.
Definition PySet_MINSIZE : nat := 8.

Record setobject : Type := SetObject {
  mask : nat;
  table : list (option nat);
  used : nat
}.

Definition empty : setobject :=
  {| mask := PySet_MINSIZE - 1;
     table := replicate PySet_MINSIZE None;
     used := 0 |}.

Inductive probe_result : Type :=
| FoundUnused (slot : nat)
| FoundActive
| NextProbe.

(** The [do ... while (probes--)] loop of [set_add_entry]. *)
Fixpoint look (table : list (option nat)) (key slot probes : nat)
    : probe_result :=
  match table !! slot with
  | Some None => FoundUnused slot
  | Some (Some k) =>
      if bool_decide (k = key) then FoundActive
      else match probes with
           | 0 => NextProbe
           | S probes' => look table key (S slot) probes'
           end
  | None => NextProbe
  end.

(** The [while (1)] loop of [set_add_entry]; [None] when [fuel] rounds
    did not find a slot. *)
Fixpoint find_slot (fuel : nat) (so : setobject) (key i perturb : nat)
    : option probe_result :=
  match fuel with
  | 0 => None
  | S fuel' =>
      let probes :=
        if i + LINEAR_PROBES <=? mask so then LINEAR_PROBES else 0 in
      match look (table so) key i probes with
      | NextProbe =>
          let perturb := Nat.shiftr perturb PERTURB_SHIFT in
          find_slot fuel' so key (Nat.land (i * 5 + 1 + perturb) (mask so))
            perturb
      | r => Some r
      end
  end.

Definition rounds (so : setobject) : nat := 64 + 2 * mask so.

(** [set_insert_clean] for every entry of the old table, in slot order. *)
Definition insert_clean (so : option setobject) (entry : option nat)
    : option setobject :=
  so ← so;
  match entry with
  | None => Some so
  | Some key =>
      r ← find_slot (rounds so) so key (Nat.land key (mask so)) key;
      match r with
      | FoundUnused slot =>
          Some {| mask := mask so;
                  table := <[slot := Some key]> (table so);
                  used := S (used so) |}
      | _ => None
      end
  end.

(** [while (newsize <= minused) newsize <<= 1] *)
Fixpoint grow (steps newsize minused : nat) : nat :=
  match steps with
  | 0 => newsize
  | S steps' =>
      if newsize <=? minused then grow steps' (2 * newsize) minused
      else newsize
  end.

Definition set_table_resize (so : setobject) (minused : nat)
    : option setobject :=
  let newsize := grow minused PySet_MINSIZE minused in
  foldl insert_clean
    (Some {| mask := newsize - 1;
             table := replicate newsize None;
             used := 0 |})
    (table so).

(** [set_add_entry] *)
Definition set_add_entry (so : setobject) (key : nat) : option setobject :=
  r ← find_slot (rounds so) so key (Nat.land key (mask so)) key;
  match r with
  | FoundActive => Some so
  | FoundUnused slot =>
      let so := {| mask := mask so;
                   table := <[slot := Some key]> (table so);
                   used := S (used so) |} in
      if used so * 5 <? mask so * 3 then Some so
      else set_table_resize so
             (if (50000 <? N.of_nat (used so))%N then used so * 2
              else used so * 4)
  | NextProbe => None
  end.

(** The keys of the table in slot order, after the insertions [ins] into
    an empty set. *)
Definition layout (ins : list nat) : option (list nat) :=
  so ← foldl (fun so key => so ← so; set_add_entry so key) (Some empty) ins;
  Some (omap id (table so)).

Definition enumerates (r ins : list nat) : Prop :=
  NoDup r ∧ r ⊆ ins ∧ ins ⊆ r.

(** [list(s)] for the set [s] that received the insertions [ins].  The
    table is read where the probes above found their slots within their
    fuel; otherwise the order of first insertion stands in. *)
Definition list_of_set (ins : list nat) : list nat :=
  match layout ins with
  | Some r => if bool_decide (enumerates r ins) then r else remove_dups ins
  | None => remove_dups ins
  end.

End CPython.

(** ** What the specification says, in its own words *)

#[local] Instance Qeq_decision (x y : Q) : Decision (x == y)%Q := Qeq_dec x y.

(** [r] is [l] sorted by descending key, elements of equal key staying in
    the order they have in [l]. *)
Definition stable_desc {A : Type} (key : A → Q) (l r : list A) : Prop :=
  r ≡ₚ l
  ∧ StronglySorted (fun x y => (key y <= key x)%Q) r
  ∧ ∀ q, filter (fun x => (key x == q)%Q) r = filter (fun x => (key x == q)%Q) l.

Module Spec.

(** Jaccard similarity of the keyword sets, "defined as 0 when the union
    is empty or the query has no keywords". *)
Definition jaccard (query_keywords entry_keywords : gset string) : Q :=
  if bool_decide (query_keywords ∪ entry_keywords = ∅ ∨ query_keywords = ∅)
  then 0
  else inject_Z (Z.of_nat (size (query_keywords ∩ entry_keywords)))
       / inject_Z (Z.of_nat (size (query_keywords ∪ entry_keywords))).

(** "the union of entry ids registered under any keyword of the query" *)
Definition registered (index : gmap string (list nat)) (query : string)
    : gset nat :=
  ⋃ ((fun keyword => list_to_set (default [] (index !! keyword)))
       <$> elements (_extract_keywords query)).

(** The candidates in the order of the corpus. *)
Definition corpus_order (candidates : list nat) (n : nat) : list nat :=
  filter (fun i => i ∈ candidates) (seq 0 n).

(** "score each with the given scorer, stable-sort descending by score
    (ties broken by original corpus order), truncate to [top_k]" *)
Definition rank `{SetOrder} (self : Rule.t) (query : string) (top_k : Z)
    : option (list (faq * Q)) :=
  let candidates :=
    corpus_order (Rule._get_candidate_faqs self query)
      (length (Rule.faqs self)) in
  scored ← mapM (Rule.score_candidate self query) candidates;
  Some (take (Z.to_nat top_k) (sort_desc snd scored)).

(** The normalized texts have no character in common. *)
Definition disjoint_texts (query faq_question : string) : Prop :=
  ∀ c, c ∈ Str.to_list (_preprocess_text query) →
       c ∉ Str.to_list (_preprocess_text faq_question).

End Spec.

(** The indices, from [i] on, of the entries whose question yields
    [keyword]. *)
Fixpoint entries_from (i : nat) (keyword : string) (faqs : list faq)
    : list nat :=
  match faqs with
  | [] => []
  | f :: faqs' =>
      (if decide (keyword ∈ _extract_keywords (question f)) then [i] else [])
      ++ entries_from (S i) keyword faqs'
  end.

Definition entries_with (keyword : string) (faqs : list faq) : list nat :=
  entries_from 0 keyword faqs.

Definition nonblank (query : string) : Prop := Str.strip query ≠ EmptyString.

#[local] Instance nonblank_dec (query : string) : Decision (nonblank query).
Proof. unfold nonblank. apply _. Defined.

(** ** Well-formed engines *)

(** [index.get(keyword, [])] *)
Definition ids_of (index : gmap string (list nat)) (keyword : string)
    : list nat :=
  default [] (index !! keyword).

(** Every index registered under a keyword is an index of the corpus, as
    it is after [__init__]. *)
Definition rule_wf (self : Rule.t) : Prop :=
  ∀ keyword ids i,
    Rule.keyword_index self !! keyword = Some ids → i ∈ ids →
    i < length (Rule.faqs self).

(** There is an entry for every stored embedding. *)
Definition nlp_wf `{Embedder} (self : NLP.t) : Prop :=
  length (NLP.faq_embeddings self) ≤ length (NLP.faqs self).

(** ** Sample collaborators and corpora *)

(** A provider under which every entry is at similarity [q] of every
    query. *)
Definition constant_embedder (q : Q) : Embedder :=
  {| embedding := unit;
     encode := fun _ => ();
     _cosine_similarity := fun _ _ => q |}.

Definition no_percent : Q → string := fun _ => EmptyString.

Definition password_faq : faq :=
  Faq "How do I reset my password?" "Click Forgot Password." "account".

Definition hours_faq : faq :=
  Faq "What are your business hours?"
      "We are open Monday to Friday, 9 AM to 6 PM EST." "general".

Definition abc_faq : faq := Faq "abc" "The answer about abc." "general".

Definition aaa_faq : faq := Faq "aaa" "The answer about aaa." "general".

Definition dots_faq : faq := Faq "..." "The answer to nothing." "general".

(** The answers of a ranking, in its order. *)
Definition answers (matches : option (list (faq * Q)))
    : option (list string) :=
  (fun l : list (faq * Q) => (fun m : faq * Q => answer m.1) <$> l)
    <$> matches.

(** Nine entries, the second and the ninth asking the same question. *)
Definition nine_faqs : list faq :=
  [ hours_faq;
    Faq "How do I reset my password?" "Use the login page." "account";
    Faq "How can I contact customer support?" "Write to us." "support";
    Faq "Where is my order?" "See the tracking page." "orders";
    Faq "What payment methods are accepted?" "Cards." "billing";
    Faq "Do you ship abroad?" "Yes." "shipping";
    Faq "How long does delivery take?" "Three days." "shipping";
    Faq "Can I return an item?" "Within 30 days." "orders";
    Faq "How do I reset my password?" "Call the help desk." "account" ].

(** ** [rule_bot.py]: the substring bot *)

Module SimpleBot.

(** [s.startswith(prefix)] *)
Fixpoint startswith (prefix s : string) : bool :=
  match prefix, s with
  | EmptyString, _ => true
  | String a prefix', String b s' =>
      bool_decide (a = b) && startswith prefix' s'
  | String _ _, EmptyString => false
  end.

(** [needle in s] *)
Fixpoint contains (needle s : string) : bool :=
  startswith needle s
  || match s with
     | EmptyString => false
     | String _ s' => contains needle s'
     end.

Definition apology : string := "Sorry, I don't understand that.".

(** The test of the loop, for the lowered input. *)
Definition hit (user_input : string) (f : faq) : bool :=
  contains (Str.lower (question f)) user_input.

(** [RuleBasedChatbot.get_response] of [rule_bot.py]: the answer of the
    first entry whose lowered question occurs in the lowered input. *)
Definition get_response (faqs : list faq) (user_input : string) : string :=
  let user_input := Str.lower user_input in
  match List.find (hit user_input) faqs with
  | Some f => answer f
  | None => apology
  end.

End SimpleBot.

(** ** [logger.py]: the chat log and its analytics *)

#[local] Instance Qlt_decision (x y : Q) : Decision (x < y)%Q.
Proof.
  destruct (Qlt_le_dec x y) as [Hlt|Hle]; [by left|right].
  by apply Qle_not_lt.
Defined.

Module ChatLogger.

(** An entry as [log_interaction] writes it. *)
Record entry : Type := Entry {
  timestamp : string;
  session_id : string;
  query : string;
  response : string;
  score : Q;
  method : string;
  category : string
}.

(** [l[start:]] *)
Definition slice_from {A : Type} (l : list A) (start : Z) : list A :=
  if (start <? 0)%Z then drop (Z.to_nat (Z.of_nat (length l) + start)) l
  else drop (Z.to_nat start) l.

(** [get_logs]: [file] is the sequence of entries on the lines of the log
    file that are not blank, or [None] where the file does not exist. *)
Definition get_logs (file : option (list entry)) (limit : Z) : list entry :=
  match file with
  | None => []
  | Some logs => slice_from logs (- limit)
  end.

(** [counts[key] = counts.get(key, 0) + 1] on a [dict], whose items keep
    the order in which the keys were first inserted. *)
Fixpoint bump (counts : list (string * nat)) (key : string)
    : list (string * nat) :=
  match counts with
  | [] => [(key, 1)]
  | (k, n) :: counts' =>
      if decide (k = key) then (k, S n) :: counts'
      else (k, n) :: bump counts' key
  end.

Definition tally (keys : list string) : list (string * nat) :=
  foldl bump [] keys.

Record analytics : Type := Analytics {
  total_interactions : nat;
  average_confidence : Q;
  methods_used : list (string * nat);
  categories : list (string * nat);
  low_confidence_count : nat;
  low_confidence_percentage : Q;
  top_queries : list (string * nat);
  session_count : nat
}.

(** [get_analytics]; [None] stands for the report
    [{'total_interactions': 0, 'message': 'No logs available'}]. *)
Definition get_analytics (file : option (list entry)) : option analytics :=
  let logs := get_logs file 10000 in
  match logs with
  | [] => None
  | _ =>
      let total := length logs in
      let avg_score :=
        (foldl Qplus 0 (score <$> logs) / inject_Z (Z.of_nat total))%Q in
      let methods := tally (method <$> logs) in
      let categories := tally (category <$> logs) in
      let low_confidence :=
        filter (fun log => (score log < 5 # 10)%Q) logs in
      let query_counts := tally ((fun log => Str.lower (query log)) <$> logs) in
      let top_queries :=
        take 10 (sort_desc (fun item => inject_Z (Z.of_nat item.2))
                   query_counts) in
      Some {| total_interactions := total;
              average_confidence := avg_score;
              methods_used := methods;
              categories := categories;
              low_confidence_count := length low_confidence;
              low_confidence_percentage :=
                (inject_Z (Z.of_nat (length low_confidence))
                 / inject_Z (Z.of_nat total) * 100)%Q;
              top_queries := top_queries;
              session_count :=
                size (list_to_set (session_id <$> logs) : gset string) |}
  end.

(** [counts.get(key, 0)] *)
Fixpoint get (counts : list (string * nat)) (key : string) : nat :=
  match counts with
  | [] => 0
  | (k, n) :: counts' => if decide (k = key) then n else get counts' key
  end.

(** How often [key] occurs among [keys]. *)
Definition occurrences (key : string) (keys : list string) : nat :=
  length (filter (fun k => k = key) keys).

(** A table of counts: no key twice, no count of zero. *)
Definition table_ok (counts : list (string * nat)) : Prop :=
  NoDup counts.*1 ∧ Forall (fun item => 0 < item.2) counts.

(** [get_unanswered_queries] *)
Definition get_unanswered_queries (file : option (list entry))
    (threshold : Q) : list entry :=
  let logs := get_logs file 10000 in
  filter (fun log => (score log < threshold)%Q) logs.

End ChatLogger.

(** * Facts *)

(** ** Comparisons, sorting, slicing *)

Lemma Qltb_lt (x y : Q) : Qltb x y = true ↔ (x < y)%Q.
Proof.
  unfold Qltb. rewrite negb_true_iff.
  split.
  - intros E. apply Qnot_le_lt. intros Hle.
    apply Qle_bool_iff in Hle. congruence.
  - intros Hlt. destruct (Qle_bool y x) eqn:E; [|done].
    apply Qle_bool_iff in E. exfalso. by apply (Qlt_not_le x y).
Qed.

Lemma Qltb_ge (x y : Q) : Qltb x y = false ↔ (y <= x)%Q.
Proof.
  unfold Qltb. rewrite negb_false_iff. apply Qle_bool_iff.
Qed.

Section SortFacts.

Context {A : Type} (key : A → Q).

Let ge : A → A → Prop := fun x y => (key y <= key x)%Q.

Lemma insert_desc_perm x l : insert_desc key x l ≡ₚ x :: l.
Proof.
  induction l as [|y l IH]; simpl; [done|].
  destruct (Qltb (key x) (key y)); [|done].
  rewrite IH. apply Permutation_swap.
Qed.

Lemma sort_desc_perm l : sort_desc key l ≡ₚ l.
Proof.
  induction l as [|x l IH]; simpl; [done|].
  fold (sort_desc key l). by rewrite insert_desc_perm, IH.
Qed.

Lemma insert_desc_sorted x l :
  StronglySorted ge l → StronglySorted ge (insert_desc key x l).
Proof.
  induction l as [|y l IH]; intros Hs; simpl.
  - repeat constructor.
  - apply StronglySorted_inv in Hs as [Hs Hy].
    destruct (Qltb (key x) (key y)) eqn:E.
    + apply Qltb_lt in E. constructor; [by apply IH|].
      rewrite insert_desc_perm. constructor; [|done].
      unfold ge. by apply Qlt_le_weak.
    + apply Qltb_ge in E. constructor; [by constructor|].
      constructor; [done|].
      eapply Forall_impl; [apply Hy|]. unfold ge. simpl.
      intros z Hz. by apply (Qle_trans _ (key y)).
Qed.

Lemma sort_desc_sorted l : StronglySorted ge (sort_desc key l).
Proof.
  induction l as [|x l IH]; simpl; [constructor|].
  by apply insert_desc_sorted.
Qed.

Lemma insert_desc_filter q x l :
  filter (fun z => (key z == q)%Q) (insert_desc key x l)
  = filter (fun z => (key z == q)%Q) (x :: l).
Proof.
  induction l as [|y l IH]; simpl; [done|].
  destruct (Qltb (key x) (key y)) eqn:E; [|done].
  apply Qltb_lt in E.
  rewrite !filter_cons in *.
  destruct (decide (key y == q)%Q) as [Hy|Hy];
    destruct (decide (key x == q)%Q) as [Hx|Hx];
    rewrite IH; try done.
  exfalso. rewrite Hx, Hy in E. by apply (Qlt_irrefl q).
Qed.

Lemma sort_desc_filter q l :
  filter (fun z => (key z == q)%Q) (sort_desc key l)
  = filter (fun z => (key z == q)%Q) l.
Proof.
  induction l as [|x l IH]; simpl; [done|].
  fold (sort_desc key l).
  rewrite insert_desc_filter, !filter_cons. by rewrite IH.
Qed.

(** The model of [sort(key=..., reverse=True)] is a stable descending
    sort. *)
Lemma sort_desc_stable l : stable_desc key l (sort_desc key l).
Proof.
  split; [apply sort_desc_perm|].
  split; [apply sort_desc_sorted|].
  intros q. apply sort_desc_filter.
Qed.

Lemma sort_desc_length l : length (sort_desc key l) = length l.
Proof. by rewrite sort_desc_perm. Qed.

Lemma sort_desc_nil l : sort_desc key l = [] → l = [].
Proof.
  intros E. apply length_zero_iff_nil.
  by rewrite <- sort_desc_length, E.
Qed.

End SortFacts.

Lemma slice_to_nonneg {A} (l : list A) (k : Z) :
  (0 ≤ k)%Z → slice_to l k = take (Z.to_nat k) l.
Proof. intros Hk. unfold slice_to. by rewrite (proj2 (Z.ltb_ge k 0)). Qed.

Lemma slice_to_length {A} (l : list A) (k : Z) :
  (0 ≤ k)%Z → (Z.of_nat (length (slice_to l k)) ≤ k)%Z.
Proof.
  intros Hk. rewrite slice_to_nonneg by done.
  rewrite length_take. lia.
Qed.

Lemma slice_to_pos_nil {A} (l : list A) (k : Z) :
  (0 < k)%Z → slice_to l k = [] → l = [].
Proof.
  intros Hk. rewrite slice_to_nonneg by lia.
  destruct l as [|x l]; [done|].
  destruct (Z.to_nat k) eqn:E; [lia|done].
Qed.

(** ** The similarity ratio *)

Module DifflibFacts.
Import Difflib.

Local Arguments push_rest : simpl never.
Local Arguments find_longest_match : simpl never.

Section Bounds.

Variables a b : list ascii.

Lemma get_pred_bound alo blo i j2len j :
  row_ok alo blo i j2len → blo ≤ j →
  get_pred j2len j ≤ j - blo ∧ get_pred j2len j ≤ i - alo.
Proof.
  intros Hrow Hj. destruct j as [|j']; simpl; [lia|].
  destruct (j2len !! j') as [k|] eqn:E; simpl; [|lia].
  destruct (Hrow _ _ E) as (? & ? & ?). lia.
Qed.

Lemma scan_row_ok alo ahi blo bhi i j2len js newj2len best :
  alo ≤ i < ahi →
  row_ok alo blo i j2len →
  row_ok alo blo (S i) newj2len →
  inside (alo, ahi, blo, bhi) best →
  let r := scan_row i blo bhi j2len js newj2len best in
  row_ok alo blo (S i) r.1 ∧ inside (alo, ahi, blo, bhi) r.2.
Proof.
  intros Hi Hrow. revert newj2len best.
  induction js as [|j js IH]; intros newj2len best Hnew Hbest; simpl.
  - done.
  - destruct (j <? blo) eqn:E1; [by apply IH|].
    destruct (bhi <=? j) eqn:E2; [done|].
    apply Nat.ltb_ge in E1. apply Nat.leb_gt in E2.
    destruct (get_pred_bound alo blo i j2len j Hrow E1) as [G1 G2].
    apply IH.
    + intros j0 k0. rewrite lookup_insert.
      case_decide as Hj; [|by apply Hnew].
      intros [= <-]. subst j0. lia.
    + destruct best as [[bi bj] bs]. simpl.
      destruct (bs <? get_pred j2len j + 1); [|done].
      simpl. lia.
Qed.

Lemma scan_ok alo ahi blo bhi n s st :
  alo ≤ s → s + n ≤ ahi →
  row_ok alo blo s st.1 →
  inside (alo, ahi, blo, bhi) st.2 →
  inside (alo, ahi, blo, bhi)
    (foldl (scan_step a b blo bhi) st (seq s n)).2.
Proof.
  revert s st. induction n as [|n IH]; intros s st Hs Hn Hrow Hbest; simpl.
  - done.
  - pose proof (scan_row_ok alo ahi blo bhi s st.1
      (from_option (fun c => default [] (chain_b b !! c)) [] (a !! s))
      ∅ st.2) as Hstep.
    destruct Hstep as [R1 R2]; [lia|done| |done|].
    { intros j k. by rewrite lookup_empty. }
    apply IH; [lia|lia|apply R1|apply R2].
Qed.

Lemma extend_left_ok alo ahi blo bhi besti bestj bestsize :
  inside (alo, ahi, blo, bhi) (besti, bestj, bestsize) →
  inside (alo, ahi, blo, bhi)
    (extend_left a b alo blo besti bestj bestsize).
Proof.
  revert bestj bestsize.
  induction besti as [|i' IH]; intros bestj bestsize Hin; simpl.
  - done.
  - destruct bestj as [|j']; [done|].
    destruct ((alo <? S i') && (blo <? S j') && same a b i' j') eqn:E;
      [|done].
    apply andb_prop in E as [E _]. apply andb_prop in E as [E1 E2].
    apply Nat.ltb_lt in E1, E2.
    apply IH. simpl in *. lia.
Qed.

Lemma extend_right_ok alo ahi blo bhi room besti bestj bestsize :
  inside (alo, ahi, blo, bhi) (besti, bestj, bestsize) →
  inside (alo, ahi, blo, bhi)
    (besti, bestj, extend_right a b room ahi bhi besti bestj bestsize).
Proof.
  revert bestsize.
  induction room as [|room IH]; intros bestsize Hin; simpl.
  - done.
  - destruct ((besti + bestsize <? ahi) && (bestj + bestsize <? bhi)
              && same a b (besti + bestsize) (bestj + bestsize)) eqn:E;
      [|done].
    apply andb_prop in E as [E _]. apply andb_prop in E as [E1 E2].
    apply Nat.ltb_lt in E1, E2.
    apply IH. simpl in *. lia.
Qed.

Lemma find_longest_match_inside alo ahi blo bhi :
  valid (alo, ahi, blo, bhi) →
  inside (alo, ahi, blo, bhi) (find_longest_match a b alo ahi blo bhi).
Proof.
  intros [Ha Hb]. unfold find_longest_match.
  pose proof (scan_ok alo ahi blo bhi (ahi - alo) alo (∅, (alo, blo, 0)))
    as Hscan.
  destruct (foldl (scan_step a b blo bhi) (∅, (alo, blo, 0))
              (seq alo (ahi - alo))) as [j2len [[bi bj] bs]].
  simpl in Hscan.
  assert (Hin : inside (alo, ahi, blo, bhi) (bi, bj, bs)).
  { apply Hscan; [lia|lia| |simpl; lia].
    intros j k. by rewrite lookup_empty. }
  pose proof (extend_left_ok alo ahi blo bhi bi bj bs Hin) as Hl.
  destruct (extend_left a b alo blo bi bj bs) as [[bi' bj'] bs'].
  by apply extend_right_ok.
Qed.

Lemma total_app found m : total (found ++ [m]) = total found + m.2.
Proof. unfold total. rewrite sum_list_with_app. simpl. lia. Qed.

Lemma push_rest_valid r m queue :
  valid r → inside r m → Forall valid queue →
  Forall valid (push_rest r m queue).
Proof.
  destruct r as [[[alo ahi] blo] bhi], m as [[i j] k].
  intros Hr Hm Hq. unfold push_rest.
  destruct ((alo <? i) && (blo <? j)) eqn:E1;
    destruct ((i + k <? ahi) && (j + k <? bhi)) eqn:E2;
    repeat match goal with
           | H : _ && _ = true |- _ => apply andb_prop in H as [? ?]
           | H : (_ <? _) = true |- _ => apply Nat.ltb_lt in H
           end;
    repeat constructor; simpl in *; try lia; done.
Qed.

Lemma push_rest_cap r m queue :
  inside r m →
  sum_list_with cap (push_rest r m queue) + m.2
  ≤ cap r + sum_list_with cap queue.
Proof.
  destruct r as [[[alo ahi] blo] bhi], m as [[i j] k].
  intros Hm. unfold push_rest.
  destruct ((alo <? i) && (blo <? j));
    destruct ((i + k <? ahi) && (j + k <? bhi));
    simpl in *; lia.
Qed.

Lemma push_rest_work r m queue :
  inside r m → m.2 ≠ 0 →
  work (push_rest r m queue) < weight r + work queue.
Proof.
  destruct r as [[[alo ahi] blo] bhi], m as [[i j] k].
  intros Hm Hk. unfold push_rest, work.
  destruct ((alo <? i) && (blo <? j)) eqn:E1;
    destruct ((i + k <? ahi) && (j + k <? bhi)) eqn:E2;
    repeat match goal with
           | H : _ && _ = true |- _ => apply andb_prop in H as [? ?]
           | H : (_ <? _) = true |- _ => apply Nat.ltb_lt in H
           end;
    simpl in *; lia.
Qed.

(** The blocks found never add up to more than the ranges allow. *)
Lemma blocks_loop_total fuel queue found :
  Forall valid queue →
  total (blocks_loop a b fuel queue found)
  ≤ total found + sum_list_with cap queue.
Proof.
  revert queue found.
  induction fuel as [|fuel IH]; intros queue found Hq; simpl; [lia|].
  destruct queue as [|r queue]; [simpl; lia|].
  destruct r as [[[alo ahi] blo] bhi].
  apply Forall_cons in Hq as [Hr Hq].
  pose proof (find_longest_match_inside alo ahi blo bhi Hr) as Hin.
  set (m := find_longest_match a b alo ahi blo bhi) in *.
  case_bool_decide as Hk.
  - etrans; [by apply IH|]. simpl. lia.
  - etrans; [apply IH; by apply push_rest_valid|].
    rewrite total_app.
    pose proof (push_rest_cap (alo, ahi, blo, bhi) m queue Hin).
    simpl in *. lia.
Qed.

(** With at least [work queue] rounds the loop runs until the work list
    is empty: more rounds change nothing. *)
Lemma blocks_loop_fuel fuel fuel' queue found :
  Forall valid queue →
  work queue ≤ fuel → work queue ≤ fuel' →
  blocks_loop a b fuel queue found = blocks_loop a b fuel' queue found.
Proof.
  revert fuel' queue found.
  induction fuel as [|fuel IH]; intros fuel' queue found Hq H1 H2.
  - destruct queue as [|[[[alo ahi] blo] bhi] queue].
    + by destruct fuel'.
    + unfold work in H1. simpl in H1. lia.
  - destruct queue as [|r queue]; [by destruct fuel'|].
    destruct fuel' as [|fuel'].
    { destruct r as [[[alo ahi] blo] bhi]. unfold work in H2.
      simpl in H2. lia. }
    destruct r as [[[alo ahi] blo] bhi]. simpl.
    apply Forall_cons in Hq as [Hr Hq].
    pose proof (find_longest_match_inside alo ahi blo bhi Hr) as Hin.
    set (m := find_longest_match a b alo ahi blo bhi) in *.
    unfold work in H1, H2. simpl in H1, H2.
    case_bool_decide as Hk.
    + apply IH; [done|unfold work; lia..].
    + pose proof (push_rest_work (alo, ahi, blo, bhi) m queue Hin Hk)
        as Hw.
      unfold work in Hw. simpl in Hw.
      apply IH; [by apply push_rest_valid|unfold work; lia..].
Qed.

Lemma matches_le_a : matches a b ≤ length a.
Proof.
  unfold matches, found_blocks.
  pose proof (blocks_loop_total (work [(0, length a, 0, length b)])
                [(0, length a, 0, length b)] []) as Hle.
  unfold total in Hle. simpl in Hle.
  etrans; [apply Hle|]; [|lia].
  repeat constructor; simpl; lia.
Qed.

Lemma matches_le_b : matches a b ≤ length b.
Proof.
  unfold matches, found_blocks.
  pose proof (blocks_loop_total (work [(0, length a, 0, length b)])
                [(0, length a, 0, length b)] []) as Hle.
  unfold total in Hle. simpl in Hle.
  etrans; [apply Hle|]; [|lia].
  repeat constructor; simpl; lia.
Qed.

Lemma ratio_range : (0 <= ratio a b <= 1)%Q.
Proof.
  unfold ratio. case_bool_decide as Hlen; [split; discriminate|].
  pose proof matches_le_a. pose proof matches_le_b.
  assert (Hpos : (0 < inject_Z (Z.of_nat (length a + length b)))%Q).
  { rewrite <- (Zlt_Qlt 0). lia. }
  split.
  - apply Qle_shift_div_l; [done|]. rewrite Qmult_0_l.
    change 2%Q with (inject_Z 2). rewrite <- inject_Z_mult.
    rewrite <- (Zle_Qle 0). lia.
  - apply Qle_shift_div_r; [done|]. rewrite Qmult_1_l.
    change 2%Q with (inject_Z 2). rewrite <- inject_Z_mult.
    rewrite <- Zle_Qle. lia.
Qed.

(** *** Sequences without a common element *)

Lemma chain_fold_key (l : list (nat * ascii)) (b2j : gmap ascii (list nat))
    (c : ascii) :
  is_Some (foldl chain_step b2j l !! c) →
  is_Some (b2j !! c) ∨ c ∈ l.*2.
Proof.
  revert b2j. induction l as [|ie l IH]; intros b2j; simpl; [by left|].
  intros Hc. apply IH in Hc as [Hc|Hc]; [|right; by right].
  unfold chain_step in Hc. rewrite lookup_insert in Hc.
  case_decide as E; [|by left]. right. rewrite <- E. left.
Qed.

Lemma chain_b_key (c : ascii) : is_Some (chain_b b !! c) → c ∈ b.
Proof.
  intros Hc.
  assert (Hall : is_Some (chain_all b !! c)).
  { unfold chain_b in Hc. case_bool_decide; [|done].
    destruct Hc as [l Hl].
    apply map_lookup_filter_Some in Hl as [Hl _]. by exists l. }
  apply chain_fold_key in Hall as [Hemp|Hin].
  - rewrite lookup_empty in Hemp. by destruct Hemp.
  - apply list_elem_of_fmap in Hin as ([i c'] & -> & Hin).
    apply list_elem_of_lookup in Hin as [k Hk].
    rewrite list_lookup_imap in Hk.
    destruct (b !! k) as [x|] eqn:E; simplify_eq/=.
    by eapply list_elem_of_lookup_2.
Qed.

Hypothesis disjoint : ∀ c, c ∈ a → c ∉ b.

Lemma same_disjoint i j : same a b i j = false.
Proof.
  unfold same.
  destruct (a !! i) as [x|] eqn:Ea; [|done].
  destruct (b !! j) as [y|] eqn:Eb; [|done].
  case_bool_decide as E; [|done]. subst y.
  destruct (disjoint x); by eapply list_elem_of_lookup_2.
Qed.

Lemma row_disjoint i :
  from_option (fun c => default [] (chain_b b !! c)) [] (a !! i) = [].
Proof.
  destruct (a !! i) as [x|] eqn:Ea; [|done]. simpl.
  destruct (chain_b b !! x) as [l|] eqn:E; [|done].
  destruct (disjoint x); [by eapply list_elem_of_lookup_2|].
  apply chain_b_key. by exists l.
Qed.

Lemma scan_disjoint blo bhi l st :
  (foldl (scan_step a b blo bhi) st l).2 = st.2.
Proof.
  revert st. induction l as [|i l IH]; intros st; simpl; [done|].
  rewrite IH. unfold scan_step. by rewrite row_disjoint.
Qed.

Lemma extend_left_disjoint alo blo besti bestj bestsize :
  extend_left a b alo blo besti bestj bestsize = (besti, bestj, bestsize).
Proof.
  destruct besti as [|i']; [done|]. destruct bestj as [|j']; [done|].
  simpl. by rewrite same_disjoint, andb_false_r.
Qed.

Lemma extend_right_disjoint room ahi bhi besti bestj bestsize :
  extend_right a b room ahi bhi besti bestj bestsize = bestsize.
Proof.
  destruct room; [done|]. simpl. by rewrite same_disjoint, andb_false_r.
Qed.

Lemma find_longest_match_disjoint alo ahi blo bhi :
  find_longest_match a b alo ahi blo bhi = (alo, blo, 0).
Proof.
  unfold find_longest_match.
  pose proof (scan_disjoint blo bhi (seq alo (ahi - alo))
                (∅, (alo, blo, 0))) as Hscan.
  destruct (foldl (scan_step a b blo bhi) (∅, (alo, blo, 0))
              (seq alo (ahi - alo))) as [j2len [[bi bj] bs]].
  simpl in Hscan. simplify_eq.
  by rewrite extend_left_disjoint, extend_right_disjoint.
Qed.

Lemma blocks_loop_disjoint fuel queue found :
  blocks_loop a b fuel queue found = found.
Proof.
  revert queue. induction fuel as [|fuel IH]; intros queue; [done|].
  destruct queue as [|[[[alo ahi] blo] bhi] queue]; [done|].
  simpl. rewrite find_longest_match_disjoint. simpl. apply IH.
Qed.

Lemma matches_disjoint : matches a b = 0.
Proof. unfold matches, found_blocks. by rewrite blocks_loop_disjoint. Qed.

Lemma ratio_disjoint : length a + length b ≠ 0 → (ratio a b == 0)%Q.
Proof.
  intros Hlen. unfold ratio. rewrite bool_decide_false by done.
  rewrite matches_disjoint. reflexivity.
Qed.

End Bounds.
End DifflibFacts.

(** ** The keyword index *)

Lemma register_ids i index kw kw' :
  ids_of (register i index kw) kw'
  = ids_of index kw' ++ (if decide (kw = kw') then [i] else []).
Proof.
  unfold register, ids_of. rewrite lookup_alter.
  destruct (decide (kw = kw')) as [<-|Hne].
  - destruct (index !! kw) as [ids|] eqn:E.
    + by rewrite E.
    + by rewrite lookup_insert_eq.
  - destruct (index !! kw) as [ids|] eqn:E.
    + by rewrite app_nil_r.
    + by rewrite lookup_insert_ne, app_nil_r.
Qed.

Lemma register_all_elem i kws index kw x :
  x ∈ ids_of (register_all i kws index) kw
  ↔ x ∈ ids_of index kw ∨ (x = i ∧ kw ∈ kws).
Proof.
  unfold register_all. revert index.
  induction kws as [|k kws IH]; intros index; simpl.
  - set_solver.
  - rewrite IH, register_ids.
    destruct (decide (k = kw)) as [->|Hne]; set_solver.
Qed.

Section IndexFacts.

Context `{SetOrder}.

Lemma iter_keywords_elem s kw : kw ∈ iter_keywords s ↔ kw ∈ s.
Proof. by rewrite iter_keywords_perm, elem_of_elements. Qed.

Lemma build_from_elem n faqs index kw x :
  x ∈ ids_of (build_from n faqs index) kw
  ↔ x ∈ ids_of index kw
    ∨ ∃ k f, faqs !! k = Some f ∧ x = n + k
             ∧ kw ∈ _extract_keywords (question f).
Proof.
  revert n index. induction faqs as [|f faqs IH]; intros n index; simpl.
  - split; [by left|]. intros [?|(k & f & Hk & _)]; [done|].
    by rewrite lookup_nil in Hk.
  - rewrite IH, register_all_elem, iter_keywords_elem.
    split.
    + intros [[Hx|[-> Hkw]]|(k & g & Hk & -> & Hkw)].
      * by left.
      * right. exists 0, f. split; [done|]. split; [lia|done].
      * right. exists (S k), g. split; [done|]. split; [lia|done].
    + intros [Hx|(k & g & Hk & -> & Hkw)]; [by left; left|].
      destruct k as [|k]; simpl in Hk.
      * simplify_eq. left. right. split; [lia|done].
      * right. exists k, g. split; [done|]. split; [lia|done].
Qed.

(** An index is registered under a keyword exactly if that keyword is
    extracted from the question of the entry at that index. *)
Lemma _build_keyword_index_elem faqs kw i :
  i ∈ ids_of (_build_keyword_index faqs) kw
  ↔ ∃ f, faqs !! i = Some f ∧ kw ∈ _extract_keywords (question f).
Proof.
  unfold _build_keyword_index. rewrite build_from_elem.
  unfold ids_of at 1. rewrite lookup_empty. simpl.
  split.
  - intros [Hx|(k & f & Hk & -> & Hkw)]; [by apply elem_of_nil in Hx|].
    by exists f.
  - intros (f & Hi & Hkw). right. by exists i, f.
Qed.

Lemma __init___wf faqs threshold : rule_wf (Rule.__init__ faqs threshold).
Proof.
  intros kw ids i Hkw Hi. simpl in *.
  assert (Hin : i ∈ ids_of (_build_keyword_index faqs) kw).
  { unfold ids_of. by rewrite Hkw. }
  apply _build_keyword_index_elem in Hin as (f & Hf & _).
  by eapply lookup_lt_Some.
Qed.

(** ** The candidates *)

Lemma update_candidates_elem self kws candidates x :
  x ∈ foldl (Rule.update_candidates self) candidates kws
  ↔ x ∈ candidates
    ∨ ∃ kw, kw ∈ kws ∧ x ∈ ids_of (Rule.keyword_index self) kw.
Proof.
  revert candidates. induction kws as [|k kws IH]; intros candidates; simpl.
  - set_solver.
  - rewrite IH. unfold Rule.update_candidates, ids_of.
    destruct (Rule.keyword_index self !! k) as [ids|] eqn:E.
    + rewrite elem_of_app. split.
      * intros [[?|?]|(kw & ? & ?)]; [by left| |].
        -- right. exists k. rewrite E. set_solver.
        -- right. exists kw. set_solver.
      * intros [?|(kw & [->|?]%elem_of_cons & Hx)].
        -- by left; left.
        -- rewrite E in Hx. by left; right.
        -- right. by exists kw.
    + split.
      * intros [?|(kw & ? & ?)]; [by left|].
        right. exists kw. set_solver.
      * intros [?|(kw & [->|?]%elem_of_cons & Hx)].
        -- by left.
        -- rewrite E in Hx. by apply elem_of_nil in Hx.
        -- right. by exists kw.
Qed.

Lemma registered_elem index query x :
  x ∈ Spec.registered index query
  ↔ ∃ kw, kw ∈ _extract_keywords query ∧ x ∈ ids_of index kw.
Proof.
  unfold Spec.registered, ids_of. rewrite elem_of_union_list. split.
  - intros (X & HX & Hx).
    apply list_elem_of_fmap in HX as (kw & -> & Hkw).
    exists kw. rewrite elem_of_elements in Hkw.
    by rewrite elem_of_list_to_set in Hx.
  - intros (kw & Hkw & Hx).
    exists (list_to_set (default [] (index !! kw))). split.
    + apply list_elem_of_fmap. exists kw. by rewrite elem_of_elements.
    + by rewrite elem_of_list_to_set.
Qed.

(** The insertions into [candidates] are the registered indices. *)
Lemma insertions_registered self query x :
  x ∈ foldl (Rule.update_candidates self) []
        (iter_keywords (_extract_keywords query))
  ↔ x ∈ Spec.registered (Rule.keyword_index self) query.
Proof.
  rewrite update_candidates_elem, registered_elem.
  split.
  - intros [Hx|(kw & Hkw & Hx)]; [by apply elem_of_nil in Hx|].
    exists kw. by rewrite <- iter_keywords_elem.
  - intros (kw & Hkw & Hx). right. exists kw.
    by rewrite iter_keywords_elem.
Qed.

Lemma _get_candidate_faqs_hit self query :
  Spec.registered (Rule.keyword_index self) query ≠ ∅ →
  NoDup (Rule._get_candidate_faqs self query)
  ∧ ∀ i, i ∈ Rule._get_candidate_faqs self query
         ↔ i ∈ Spec.registered (Rule.keyword_index self) query.
Proof.
  intros Hne. unfold Rule._get_candidate_faqs.
  pose proof (insertions_registered self query) as Hins.
  destruct (foldl (Rule.update_candidates self) []
              (iter_keywords (_extract_keywords query))) as [|c cs] eqn:E.
  - destruct Hne. apply set_eq. intros x. rewrite <- Hins. set_solver.
  - split; [apply list_of_set_NoDup|].
    intros i. by rewrite list_of_set_elem, Hins.
Qed.

Lemma _get_candidate_faqs_miss self query :
  Spec.registered (Rule.keyword_index self) query = ∅ →
  Rule._get_candidate_faqs self query = seq 0 (length (Rule.faqs self)).
Proof.
  intros Hemp. unfold Rule._get_candidate_faqs.
  pose proof (insertions_registered self query) as Hins.
  destruct (foldl (Rule.update_candidates self) []
              (iter_keywords (_extract_keywords query))) as [|c cs] eqn:E.
  - done.
  - exfalso. assert (Hc : c ∈ (∅ : gset nat)).
    { rewrite <- Hemp, <- Hins. left. }
    set_solver.
Qed.

Lemma _get_candidate_faqs_nonempty self query :
  Rule.faqs self ≠ [] → Rule._get_candidate_faqs self query ≠ [].
Proof.
  intros Hfaqs.
  destruct (decide (Spec.registered (Rule.keyword_index self) query = ∅))
    as [Hemp|Hne].
  - rewrite _get_candidate_faqs_miss by done.
    destruct (Rule.faqs self); [done|]. simpl. discriminate.
  - destruct (_get_candidate_faqs_hit self query Hne) as [_ Hin].
    apply set_choose_L in Hne as [x Hx]. apply Hin in Hx.
    intros E. rewrite E in Hx. by apply elem_of_nil in Hx.
Qed.

Lemma _get_candidate_faqs_bound self query i :
  rule_wf self → i ∈ Rule._get_candidate_faqs self query →
  i < length (Rule.faqs self).
Proof.
  intros Hwf.
  destruct (decide (Spec.registered (Rule.keyword_index self) query = ∅))
    as [Hemp|Hne].
  - rewrite _get_candidate_faqs_miss by done.
    rewrite elem_of_seq. lia.
  - destruct (_get_candidate_faqs_hit self query Hne) as [_ Hin].
    rewrite Hin, registered_elem. intros (kw & _ & Hi).
    unfold ids_of in Hi.
    destruct (Rule.keyword_index self !! kw) as [ids|] eqn:E;
      [|by apply elem_of_nil in Hi].
    by eapply Hwf.
Qed.

End IndexFacts.

(** ** The lexical score *)

Lemma _keyword_match_score_jaccard query faq_question :
  _keyword_match_score query faq_question
  = Spec.jaccard (_extract_keywords query) (_extract_keywords faq_question).
Proof.
  unfold _keyword_match_score, Spec.jaccard.
  repeat case_bool_decide; naive_solver.
Qed.

Lemma jaccard_range (A B : gset string) : (0 <= Spec.jaccard A B <= 1)%Q.
Proof.
  unfold Spec.jaccard. case_bool_decide as Hcase; [split; discriminate|].
  assert (Hne : A ∪ B ≠ ∅) by tauto.
  assert (Hsize : size (A ∪ B) ≠ 0).
  { intros E. apply size_empty_iff in E. apply Hne.
    by apply leibniz_equiv. }
  assert (Hle : size (A ∩ B) ≤ size (A ∪ B)).
  { apply subseteq_size. set_solver. }
  assert (Hpos : (0 < inject_Z (Z.of_nat (size (A ∪ B))))%Q).
  { rewrite <- (Zlt_Qlt 0). lia. }
  split.
  - apply Qle_shift_div_l; [done|]. rewrite Qmult_0_l.
    rewrite <- (Zle_Qle 0). lia.
  - apply Qle_shift_div_r; [done|]. rewrite Qmult_1_l.
    rewrite <- Zle_Qle. lia.
Qed.

Lemma _calculate_similarity_range text1 text2 :
  (0 <= _calculate_similarity text1 text2 <= 1)%Q.
Proof. apply DifflibFacts.ratio_range. Qed.

Lemma combined_score_range query faq_question :
  (0 <= combined_score query faq_question <= 1)%Q.
Proof.
  unfold combined_score. rewrite _keyword_match_score_jaccard.
  pose proof (jaccard_range (_extract_keywords query)
                (_extract_keywords faq_question)) as [? ?].
  pose proof (_calculate_similarity_range query faq_question) as [? ?].
  split; lra.
Qed.

Lemma to_list_length s : length (Str.to_list s) = String.length s.
Proof.
  unfold Str.to_list. induction s as [|c s IH]; simpl; [done|].
  by rewrite IH.
Qed.

Lemma to_list_nil s : Str.to_list s = [] → s = EmptyString.
Proof. by destruct s. Qed.

Lemma combined_score_disjoint query faq_question :
  _extract_keywords query = ∅ →
  Spec.disjoint_texts query faq_question →
  ¬ (_preprocess_text query = EmptyString
     ∧ _preprocess_text faq_question = EmptyString) →
  (combined_score query faq_question == 0)%Q.
Proof.
  intros Hkw Hdis Hne. unfold combined_score, _keyword_match_score.
  rewrite bool_decide_true by done.
  unfold _calculate_similarity.
  rewrite DifflibFacts.ratio_disjoint; [reflexivity|done|].
  intros Hlen. apply Hne.
  split; apply to_list_nil, length_zero_iff_nil; lia.
Qed.

(** ** Ranking *)

Section RankFacts.

Context `{SetOrder}.

Lemma score_candidate_Some self query idx m :
  Rule.score_candidate self query idx = Some m
  ↔ Rule.faqs self !! idx = Some m.1
    ∧ m.2 = combined_score query (question m.1).
Proof.
  unfold Rule.score_candidate.
  destruct (Rule.faqs self !! idx) as [f|]; simpl.
  - split.
    + by intros [= <-].
    + intros [[= ->] E]. destruct m as [f' s]. simpl in *. by subst.
  - split; [done|]. by intros [? _].
Qed.

(** On a well-formed engine no lookup of [find_best_match] fails. *)
Lemma scored_candidates self query :
  rule_wf self →
  ∃ scored,
    mapM (Rule.score_candidate self query)
      (Rule._get_candidate_faqs self query) = Some scored.
Proof.
  intros Hwf. apply mapM_is_Some, Forall_forall. intros idx Hidx.
  apply (_get_candidate_faqs_bound self query idx Hwf) in Hidx.
  apply lookup_lt_is_Some in Hidx as [f Hf].
  unfold compose, Rule.score_candidate. rewrite Hf. by eexists.
Qed.

Lemma find_best_match_Some self query top_k :
  rule_wf self →
  ∃ scored,
    Forall2 (fun idx m => Rule.faqs self !! idx = Some m.1
                          ∧ m.2 = combined_score query (question m.1))
      (Rule._get_candidate_faqs self query) scored
    ∧ Rule.find_best_match self query top_k
      = Some (slice_to (sort_desc snd scored) top_k).
Proof.
  intros Hwf. destruct (scored_candidates self query Hwf) as [scored Hs].
  exists scored. split.
  - apply mapM_Some in Hs. eapply Forall2_impl; [apply Hs|].
    intros idx m. apply score_candidate_Some.
  - unfold Rule.find_best_match. by rewrite Hs.
Qed.

(** With a corpus and a positive [top_k] there is a best match. *)
Lemma find_best_match_cons self query top_k :
  rule_wf self → Rule.faqs self ≠ [] → (0 < top_k)%Z →
  ∃ best score rest,
    Rule.find_best_match self query top_k = Some ((best, score) :: rest).
Proof.
  intros Hwf Hfaqs Hk.
  destruct (find_best_match_Some self query top_k Hwf)
    as (scored & Hall & ->).
  destruct (slice_to (sort_desc snd scored) top_k) as [|[best score] rest]
    eqn:E; [|by eauto].
  apply slice_to_pos_nil, sort_desc_nil in E; [|done]. subst scored.
  apply Forall2_nil_inv_r in Hall.
  by apply _get_candidate_faqs_nonempty in Hall.
Qed.

End RankFacts.

Section SemanticRankFacts.

Context `{Embedder}.

Lemma nlp_scored self query :
  nlp_wf self →
  ∃ scored,
    mapM (NLP.score_entry self (encode query))
      (imap pair (NLP.faq_embeddings self)) = Some scored
    ∧ length scored = length (NLP.faq_embeddings self).
Proof.
  intros Hwf.
  assert (Hsome : is_Some (mapM (NLP.score_entry self (encode query))
                             (imap pair (NLP.faq_embeddings self)))).
  { apply mapM_is_Some, Forall_forall. intros [i e] Hie.
    apply list_elem_of_lookup in Hie as [k Hk].
    rewrite list_lookup_imap in Hk.
    destruct (NLP.faq_embeddings self !! k) as [e'|] eqn:E;
      simplify_eq/=.
    apply lookup_lt_Some in E. unfold nlp_wf in Hwf.
    destruct (lookup_lt_is_Some_2 (NLP.faqs self) i) as [f Hf]; [lia|].
    unfold NLP.score_entry. simpl. rewrite Hf. by eexists. }
  destruct Hsome as [scored Hs]. exists scored. split; [done|].
  apply mapM_Some, Forall2_length in Hs. by rewrite length_imap in Hs.
Qed.

End SemanticRankFacts.

(** ** CPython's order is an order *)

Lemma cpython_list_of_set_NoDup ins : NoDup (CPython.list_of_set ins).
Proof.
  unfold CPython.list_of_set.
  destruct (CPython.layout ins) as [r|]; [|apply NoDup_remove_dups].
  case_bool_decide as E; [|apply NoDup_remove_dups]. by destruct E.
Qed.

Lemma cpython_list_of_set_elem ins x : x ∈ CPython.list_of_set ins ↔ x ∈ ins.
Proof.
  unfold CPython.list_of_set.
  destruct (CPython.layout ins) as [r|]; [|apply elem_of_remove_dups].
  case_bool_decide as E; [|apply elem_of_remove_dups].
  destruct E as (_ & H1 & H2). split; [apply H1|apply H2].
Qed.

(** Sets as CPython lays them out; the keywords in the order of
    [elements], the hash of a string changing from run to run. *)
Definition cpython_order : SetOrder :=
  {| iter_keywords := elements;
     iter_keywords_perm := fun s => reflexivity (elements s);
     list_of_set := CPython.list_of_set;
     list_of_set_NoDup := cpython_list_of_set_NoDup;
     list_of_set_elem := cpython_list_of_set_elem |}.

(** * The claims *)

(** ** The candidates and the index (C7, C8) *)

(** C7. Over a non-empty corpus [_get_candidate_faqs] returns, without
    repetition, the indices registered under the keywords of the query;
    when there is none it returns every index of the corpus, in corpus
    order; it never returns the empty list. *)
Theorem candidates_union_or_all `{SetOrder} (self : Rule.t) (query : string) :
  Rule.faqs self ≠ [] →
  let candidates := Rule._get_candidate_faqs self query in
  let union := Spec.registered (Rule.keyword_index self) query in
  (union ≠ ∅ → NoDup candidates ∧ ∀ i, i ∈ candidates ↔ i ∈ union)
  ∧ (union = ∅ → candidates = seq 0 (length (Rule.faqs self)))
  ∧ candidates ≠ [].
Proof.
  intros Hfaqs candidates union. split; [|split].
  - apply _get_candidate_faqs_hit.
  - apply _get_candidate_faqs_miss.
  - by apply _get_candidate_faqs_nonempty.
Qed.

Lemma candidates_union_or_all_witness :
  Rule.faqs (Rule.__init__ (H := cpython_order) [password_faq] (4 # 10)) ≠ []
  ∧ Rule._get_candidate_faqs (H := cpython_order)
      (Rule.__init__ (H := cpython_order) [password_faq] (4 # 10)) "banana"
    ≠ [].
Proof.
  assert (Hfaqs : Rule.faqs
            (Rule.__init__ (H := cpython_order) [password_faq] (4 # 10)) ≠ [])
    by discriminate.
  split; [exact Hfaqs|].
  exact (proj2 (proj2 (candidates_union_or_all (H := cpython_order)
                         _ "banana" Hfaqs))).
Defined.

(** C8. After [_build_keyword_index] every keyword extracted from the
    question of an entry is mapped to a list that holds the index of the
    entry, and every query from which that keyword is extracted has the
    index among its candidates. *)
Theorem keyword_index_invariant `{SetOrder} (faqs : list faq) (threshold : Q)
    (i : nat) (f : faq) (keyword : string) :
  faqs !! i = Some f →
  keyword ∈ _extract_keywords (question f) →
  (∃ ids, _build_keyword_index faqs !! keyword = Some ids ∧ i ∈ ids)
  ∧ ∀ query, keyword ∈ _extract_keywords query →
             i ∈ Rule._get_candidate_faqs (Rule.__init__ faqs threshold) query.
Proof.
  intros Hi Hkw.
  assert (Hreg : i ∈ ids_of (_build_keyword_index faqs) keyword).
  { apply _build_keyword_index_elem. by exists f. }
  split.
  - unfold ids_of in Hreg.
    destruct (_build_keyword_index faqs !! keyword) as [ids|];
      [by exists ids|by apply elem_of_nil in Hreg].
  - intros query Hq.
    assert (Hin : i ∈ Spec.registered
                      (Rule.keyword_index (Rule.__init__ faqs threshold))
                      query).
    { apply registered_elem. by exists keyword. }
    apply _get_candidate_faqs_hit; [set_solver|done].
Qed.

Lemma keyword_index_invariant_witness :
  nine_faqs !! 8 = Some (Faq "How do I reset my password?"
                           "Call the help desk." "account")
  ∧ "reset" ∈ _extract_keywords "How do I reset my password?"
  ∧ 8 ∈ Rule._get_candidate_faqs (H := cpython_order)
          (Rule.__init__ (H := cpython_order) nine_faqs (4 # 10))
          "reset it".
Proof.
  assert (H1 : nine_faqs !! 8
               = Some (Faq "How do I reset my password?"
                         "Call the help desk." "account")) by reflexivity.
  assert (H2 : "reset" ∈ _extract_keywords "How do I reset my password?").
  { apply (bool_decide_unpack _). vm_compute. exact I. }
  split; [exact H1|]. split; [exact H2|].
  apply (proj2 (keyword_index_invariant (H := cpython_order)
                  nine_faqs (4 # 10) 8 _ "reset" H1 H2)).
  apply (bool_decide_unpack _). vm_compute. exact I.
Defined.

(** ** The lexical score (C9) *)

Lemma disjoint_texts_Forall query faq_question :
  Forall (fun c => c ∉ Str.to_list (_preprocess_text faq_question))
    (Str.to_list (_preprocess_text query)) →
  Spec.disjoint_texts query faq_question.
Proof. intros Hall c Hc. by eapply Forall_forall in Hall. Qed.

(** C9, as the specification has it, fails where both normalized texts are
    empty: the query ["!!!"] has no keyword, it shares no character with
    the question ["..."], and the score is 0.4. *)
Lemma score_of_two_blank_texts :
  _extract_keywords "!!!" = ∅
  ∧ Spec.disjoint_texts "!!!" "..."
  ∧ (combined_score "!!!" "..." == 4 # 10)%Q
  ∧ ¬ (combined_score "!!!" "..." == 0)%Q.
Proof.
  split; [by vm_compute|].
  split; [apply disjoint_texts_Forall; by vm_compute|].
  split; [by vm_compute|].
  by vm_compute.
Qed.

(** C9, amended. The combined score is 0.6 times the Jaccard similarity of
    the keyword sets (0 when the query has no keyword or the union is
    empty) plus 0.4 times the similarity ratio of the normalized texts; it
    lies in [0,1]; it is 0 when the query has no keyword and the normalized
    texts have no character in common and are not both empty. *)
Theorem combined_score_spec (query faq_question : string) :
  combined_score query faq_question
  = ((6 # 10) * Spec.jaccard (_extract_keywords query)
                  (_extract_keywords faq_question)
     + (4 # 10) * Difflib.ratio (Str.to_list (_preprocess_text query))
                    (Str.to_list (_preprocess_text faq_question)))%Q
  ∧ (0 <= combined_score query faq_question <= 1)%Q
  ∧ (_extract_keywords query = ∅ →
     Spec.disjoint_texts query faq_question →
     ¬ (_preprocess_text query = EmptyString
     ∧ _preprocess_text faq_question = EmptyString) →
     (combined_score query faq_question == 0)%Q).
Proof.
  split; [|split].
  - unfold combined_score. by rewrite _keyword_match_score_jaccard.
  - apply combined_score_range.
  - apply combined_score_disjoint.
Qed.

Lemma combined_score_spec_witness :
  _extract_keywords "Zz!" = ∅
  ∧ Spec.disjoint_texts "Zz!" "aaa"
  ∧ ¬ (_preprocess_text "Zz!" = EmptyString
       ∧ _preprocess_text "aaa" = EmptyString)
  ∧ (combined_score "Zz!" "aaa" == 0)%Q.
Proof.
  assert (H1 : _extract_keywords "Zz!" = ∅) by (by vm_compute).
  assert (H2 : Spec.disjoint_texts "Zz!" "aaa").
  { apply disjoint_texts_Forall.
    apply (bool_decide_unpack _). vm_compute. exact I. }
  assert (H3 : ¬ (_preprocess_text "Zz!" = EmptyString
                  ∧ _preprocess_text "aaa" = EmptyString)).
  { intros [E _]. vm_compute in E. discriminate E. }
  split; [exact H1|]. split; [exact H2|]. split; [exact H3|].
  exact (proj2 (proj2 (combined_score_spec "Zz!" "aaa")) H1 H2 H3).
Defined.

(** ** Ranking (C5) *)

(** C5, as the specification has it, fails twice on the nine-entry corpus
    under CPython.  Entries 1 and 8 ask the same question and score the same
    for ["reset"]; the set [{1, 8}] is enumerated as [8, 1], so entry 8
    comes first, against corpus order.  And with [top_k = -1] the slice
    [matches[:-1]] drops the last match only: one match is returned. *)
Lemma ties_follow_the_set_not_the_corpus :
  let self := Rule.__init__ (H := cpython_order) nine_faqs (4 # 10) in
  Rule._get_candidate_faqs (H := cpython_order) self "reset" = [8; 1]
  ∧ answers (Rule.find_best_match (H := cpython_order) self "reset" 3)
    = Some ["Call the help desk."; "Use the login page."]
  ∧ answers (Spec.rank (H := cpython_order) self "reset" 3)
    = Some ["Use the login page."; "Call the help desk."]
  ∧ Rule.find_best_match (H := cpython_order) self "reset" 3
    ≠ Spec.rank (H := cpython_order) self "reset" 3
  ∧ length <$> Rule.find_best_match (H := cpython_order) self "reset" (-1)
    = Some 1.
Proof.
  split; [by vm_compute|]. split; [by vm_compute|]. split; [by vm_compute|].
  split; [|by vm_compute].
  intros E.
  apply (f_equal answers) in E.
  vm_compute in E. discriminate E.
Qed.

(** C5, amended. On well-formed engines and for every query and every
    [top_k ≥ 0], both rankers return their scored candidates sorted by
    descending score, candidates of equal score in the order in which they
    were enumerated, cut to at most [top_k] elements.  The semantic ranker
    enumerates the corpus in order; so does the lexical one when no keyword
    of the query is registered; otherwise the order is the one in which the
    set of candidates is enumerated. *)
Theorem find_best_match_ranked `{SetOrder} `{Embedder}
    (rule : Rule.t) (nlp : NLP.t) (query : string) (top_k : Z) :
  rule_wf rule → nlp_wf nlp → (0 ≤ top_k)%Z →
  (∃ scored ranked,
      Forall2 (fun idx m => Rule.faqs rule !! idx = Some m.1
                            ∧ m.2 = combined_score query (question m.1))
        (Rule._get_candidate_faqs rule query) scored
      ∧ stable_desc snd scored ranked
      ∧ Rule.find_best_match rule query top_k
        = Some (take (Z.to_nat top_k) ranked)
      ∧ length (take (Z.to_nat top_k) ranked) ≤ Z.to_nat top_k)
  ∧ (Spec.registered (Rule.keyword_index rule) query = ∅ →
     Rule._get_candidate_faqs rule query = seq 0 (length (Rule.faqs rule)))
  ∧ (∃ scored ranked,
        length scored = length (NLP.faq_embeddings nlp)
        ∧ (∀ i m, scored !! i = Some m →
                  NLP.faqs nlp !! i = Some m.1
                  ∧ ∃ e, NLP.faq_embeddings nlp !! i = Some e
                         ∧ m.2 = _cosine_similarity (encode query) e)
        ∧ stable_desc snd scored ranked
        ∧ NLP.find_best_match nlp query top_k
          = Some (take (Z.to_nat top_k) ranked)
        ∧ length (take (Z.to_nat top_k) ranked) ≤ Z.to_nat top_k).
Proof.
  intros Hrule Hnlp Hk. split; [|split].
  - destruct (find_best_match_Some rule query top_k Hrule)
      as (scored & Hall & Hres).
    exists scored, (sort_desc snd scored).
    split; [done|]. split; [apply sort_desc_stable|].
    rewrite <- slice_to_nonneg by done. split; [done|].
    rewrite slice_to_nonneg by done. rewrite length_take. lia.
  - apply _get_candidate_faqs_miss.
  - destruct (nlp_scored nlp query Hnlp) as (scored & Hs & Hlen).
    exists scored, (sort_desc snd scored).
    split; [done|]. split.
    { intros i m Hm. apply mapM_Some in Hs.
      destruct (Forall2_lookup_r _ _ _ _ _ Hs Hm) as ([j e] & Hje & Hsc).
      rewrite list_lookup_imap in Hje.
      destruct (NLP.faq_embeddings nlp !! i) as [e'|] eqn:E;
        [|discriminate Hje].
      injection Hje as <- <-.
      unfold NLP.score_entry in Hsc. simpl in Hsc.
      destruct (NLP.faqs nlp !! i) as [f|] eqn:Ef; [|discriminate Hsc].
      injection Hsc as <-. split; [done|]. by exists e'. }
    split; [apply sort_desc_stable|].
    unfold NLP.find_best_match. rewrite Hs. simpl.
    rewrite slice_to_nonneg by done. split; [done|].
    rewrite length_take. lia.
Qed.

Lemma nlp___init___wf `{Embedder} faqs threshold :
  nlp_wf (NLP.__init__ faqs threshold).
Proof.
  unfold nlp_wf, NLP.__init__, NLP._generate_embeddings. simpl.
  by rewrite length_fmap.
Qed.

Lemma find_best_match_ranked_witness :
  let rule := Rule.__init__ (H := cpython_order) nine_faqs (4 # 10) in
  let nlp := NLP.__init__ (H := constant_embedder (1 # 2)) nine_faqs (5 # 10) in
  rule_wf rule ∧ nlp_wf nlp ∧ (0 ≤ 3)%Z
  ∧ ∃ scored ranked,
      Forall2 (fun idx m => Rule.faqs rule !! idx = Some m.1
                            ∧ m.2 = combined_score "reset" (question m.1))
        (Rule._get_candidate_faqs (H := cpython_order) rule "reset") scored
      ∧ stable_desc snd scored ranked
      ∧ Rule.find_best_match (H := cpython_order) rule "reset" 3
        = Some (take (Z.to_nat 3) ranked)
      ∧ length (take (Z.to_nat 3) ranked) ≤ Z.to_nat 3.
Proof.
  intros rule nlp.
  assert (H1 : rule_wf rule) by apply (__init___wf (H := cpython_order)).
  assert (H2 : nlp_wf nlp)
    by apply (nlp___init___wf (H := constant_embedder (1 # 2))).
  assert (H3 : (0 ≤ 3)%Z) by lia.
  split; [exact H1|]. split; [exact H2|]. split; [exact H3|].
  exact (proj1 (find_best_match_ranked (H := cpython_order)
                  (H0 := constant_embedder (1 # 2))
                  rule nlp "reset" 3 H1 H2 H3)).
Defined.

(** ** The rule-based response (C4, C10) *)

Section ResponseFacts.

Context `{SetOrder}.
Variable format_percent : Q → string.

Lemma get_response_blank (self : Rule.t) (query : string) (rc : bool) :
  Str.strip query = EmptyString →
  Rule.get_response format_percent self query rc
  = Some (Rule.clarification, self).
Proof.
  intros Hblank. unfold Rule.get_response.
  by rewrite bool_decide_true.
Qed.

Lemma get_response_matched (self : Rule.t) (query : string) (rc : bool)
    (best : faq) (score : Q) (rest : list (faq * Q)) :
  Str.strip query ≠ EmptyString →
  Rule.find_best_match self query 3 = Some ((best, score) :: rest) →
  let logged :=
    Rule.log self {| i_query := query; i_response := answer best;
                     i_score := score; i_method := None |} in
  let response :=
    if Qltb score (Rule.threshold self)
    then Rule._get_fallback_response
           ((fun m => question m.1) <$> take 2 ((best, score) :: rest))
    else if rc
         then answer best +:+ Rule.confidence format_percent score
         else answer best in
  Rule.get_response format_percent self query rc = Some (response, logged).
Proof.
  intros Hq Hm. unfold Rule.get_response.
  rewrite bool_decide_false by done. rewrite Hm. simpl.
  by destruct (Qltb score (Rule.threshold self)), rc.
Qed.

End ResponseFacts.

(** C10. For a query that is not blank, on a well-formed engine with a
    non-empty corpus, [get_response] appends exactly one record, whose
    response is the answer of the top-ranked candidate, also when the score
    is below the threshold and the text returned is the fallback; the
    corpus, the threshold and the keyword index are left as they are. *)
Theorem get_response_logs_top `{SetOrder} (format_percent : Q → string)
    (self : Rule.t) (query : string) (return_confidence : bool) :
  rule_wf self → Str.strip query ≠ EmptyString → Rule.faqs self ≠ [] →
  ∃ best score rest response self',
    Rule.find_best_match self query 3 = Some ((best, score) :: rest)
    ∧ Rule.get_response format_percent self query return_confidence
      = Some (response, self')
    ∧ Rule.conversation_history self'
      = Rule.conversation_history self
        ++ [ {| i_query := query; i_response := answer best;
                i_score := score; i_method := None |} ]
    ∧ Rule.faqs self' = Rule.faqs self
    ∧ Rule.threshold self' = Rule.threshold self
    ∧ Rule.keyword_index self' = Rule.keyword_index self
    ∧ ((score < Rule.threshold self)%Q →
       response = Rule._get_fallback_response
                    ((fun m => question m.1)
                       <$> take 2 ((best, score) :: rest)))
    ∧ ((Rule.threshold self <= score)%Q →
       response = if return_confidence
                  then answer best +:+ Rule.confidence format_percent score
                  else answer best).
Proof.
  intros Hwf Hq Hfaqs.
  destruct (find_best_match_cons self query 3 Hwf Hfaqs)
    as (best & score & rest & Hm); [lia|].
  pose proof (get_response_matched format_percent self query
                return_confidence best score rest Hq Hm) as Hr.
  simpl in Hr. eexists best, score, rest, _, _.
  split; [done|]. split; [exact Hr|].
  repeat (split; [done|]). split.
  - intros Hlt. apply Qltb_lt in Hlt. by rewrite Hlt.
  - intros Hge. apply Qltb_ge in Hge. by rewrite Hge.
Qed.

Lemma get_response_logs_top_witness :
  let self := Rule.__init__ (H := cpython_order) [password_faq] (4 # 10) in
  rule_wf self ∧ Str.strip "banana" ≠ EmptyString ∧ Rule.faqs self ≠ []
  ∧ ∃ best score rest response self',
      Rule.find_best_match (H := cpython_order) self "banana" 3
      = Some ((best, score) :: rest)
      ∧ Rule.get_response (H := cpython_order) no_percent self "banana" false
        = Some (response, self')
      ∧ Rule.conversation_history self'
        = Rule.conversation_history self
          ++ [ {| i_query := "banana"; i_response := answer best;
                  i_score := score; i_method := None |} ]
      ∧ Rule.faqs self' = Rule.faqs self
      ∧ Rule.threshold self' = Rule.threshold self
      ∧ Rule.keyword_index self' = Rule.keyword_index self
      ∧ ((score < Rule.threshold self)%Q →
         response = Rule._get_fallback_response
                      ((fun m => question m.1)
                         <$> take 2 ((best, score) :: rest)))
      ∧ ((Rule.threshold self <= score)%Q →
         response = if false
                    then answer best +:+ Rule.confidence no_percent score
                    else answer best).
Proof.
  intros self.
  assert (H1 : rule_wf self) by apply (__init___wf (H := cpython_order)).
  assert (H2 : Str.strip "banana" ≠ EmptyString)
    by (vm_compute; discriminate).
  assert (H3 : Rule.faqs self ≠ []) by discriminate.
  split; [exact H1|]. split; [exact H2|]. split; [exact H3|].
  exact (get_response_logs_top (H := cpython_order) no_percent self
           "banana" false H1 H2 H3).
Defined.

(** C4, as the specification has it, fails: ["!!!"] normalizes to the empty
    text, yet the engine ranks the corpus for it, appends a record and
    returns the fallback text. *)
Lemma punctuation_only_query_is_ranked :
  let self := Rule.__init__ (H := cpython_order) [password_faq] (4 # 10) in
  _preprocess_text "!!!" = EmptyString
  ∧ ∃ score,
      Rule.get_response (H := cpython_order) no_percent self "!!!" false
      = Some (Rule._get_fallback_response ["How do I reset my password?"],
              Rule.log self {| i_query := "!!!";
                               i_response := "Click Forgot Password.";
                               i_score := score; i_method := None |})
      ∧ Rule._get_fallback_response ["How do I reset my password?"]
        ≠ Rule.clarification.
Proof.
  split; [by vm_compute|]. eexists. split; [by vm_compute|].
  vm_compute. discriminate.
Qed.

(** C4, amended. For every query that is blank as it stands (empty, or
    whitespace only, so that [query.strip()] is empty) the rule-based and
    the semantic engine return their clarification prompt and leave the
    engine, its conversation history included, as it is. *)
Theorem blank_query_clarified `{SetOrder} `{Embedder}
    (format_percent : Q → string) (rule : Rule.t) (nlp : NLP.t)
    (query : string) (return_confidence : bool) :
  Str.strip query = EmptyString →
  Rule.get_response format_percent rule query return_confidence
  = Some (Rule.clarification, rule)
  ∧ NLP.get_response format_percent nlp query return_confidence
    = Some (NLP.clarification, nlp).
Proof.
  intros Hblank. split.
  - by apply get_response_blank.
  - unfold NLP.get_response. by rewrite bool_decide_true.
Qed.

Lemma blank_query_clarified_witness :
  let rule := Rule.__init__ (H := cpython_order) [password_faq] (4 # 10) in
  let nlp := NLP.__init__ (H := constant_embedder (1 # 2))
               [password_faq] (5 # 10) in
  Str.strip "   " = EmptyString
  ∧ Rule.get_response (H := cpython_order) no_percent rule "   " false
    = Some (Rule.clarification, rule)
  ∧ NLP.get_response (H := constant_embedder (1 # 2)) no_percent nlp
      "   " false
    = Some (NLP.clarification, nlp).
Proof.
  intros rule nlp.
  assert (H1 : Str.strip "   " = EmptyString) by reflexivity.
  split; [exact H1|].
  exact (blank_query_clarified (H := cpython_order)
           (H0 := constant_embedder (1 # 2)) no_percent rule nlp
           "   " false H1).
Defined.

(** ** The arbiter (C1, C2, C3, C6) *)

(** ** The product of two floats *)

Lemma two_pow_pos (e : Z) : (0 < Float.two_pow e)%Q.
Proof. by apply Qpower_0_lt. Qed.

Lemma two_pow_le (a b : Z) :
  (a <= b)%Z → (Float.two_pow a <= Float.two_pow b)%Q.
Proof. intros Hab. by apply Qpower_le_compat_l. Qed.

Lemma two_pow_lt_inv (a b : Z) :
  (Float.two_pow a < Float.two_pow b)%Q → (a < b)%Z.
Proof. intros Hab. by apply (Qpower_lt_compat_l_inv 2). Qed.

Lemma two_pow_plus (a b : Z) :
  (Float.two_pow (a + b) == Float.two_pow a * Float.two_pow b)%Q.
Proof. by apply Qpower_plus. Qed.

Lemma two_pow_Z (n : Z) :
  (0 <= n)%Z → (Float.two_pow n == inject_Z (2 ^ n))%Q.
Proof. intros Hn. unfold Float.two_pow. by rewrite Zpower_Qpower. Qed.

Lemma nearest_even_floor (x : Q) :
  (Qfloor x <= Float.nearest_even x <= Qfloor x + 1)%Z.
Proof.
  unfold Float.nearest_even.
  destruct (x - inject_Z (Qfloor x) ?= 1 # 2)%Q; [|lia|lia].
  destruct (Z.even (Qfloor x)); lia.
Qed.

Lemma nearest_even_ge (k : Z) (x : Q) :
  (inject_Z k <= x)%Q → (k <= Float.nearest_even x)%Z.
Proof.
  intros Hk. apply Qfloor_resp_le in Hk. rewrite Qfloor_Z in Hk.
  pose proof (nearest_even_floor x). lia.
Qed.

Lemma nearest_even_le (k : Z) (x : Q) :
  (x <= inject_Z k)%Q → (Float.nearest_even x <= k)%Z.
Proof.
  intros Hk. pose proof (Qfloor_resp_le _ _ Hk) as Hf.
  rewrite Qfloor_Z in Hf.
  destruct (decide (Qfloor x = k)) as [E|E].
  - unfold Float.nearest_even. rewrite E.
    destruct (Qcompare_spec (x - inject_Z k) (1 # 2)); [lra|lia|lra].
  - pose proof (nearest_even_floor x). lia.
Qed.

Lemma nearest_even_mono (x y : Q) :
  (x <= y)%Q → (Float.nearest_even x <= Float.nearest_even y)%Z.
Proof.
  intros Hxy. pose proof (Qfloor_resp_le _ _ Hxy) as Hf.
  pose proof (nearest_even_floor x) as Hx.
  pose proof (nearest_even_floor y) as Hy.
  destruct (decide (Qfloor x = Qfloor y)) as [E|E]; [|lia].
  unfold Float.nearest_even. rewrite E.
  destruct (Qcompare_spec (x - inject_Z (Qfloor y)) (1 # 2));
    destruct (Qcompare_spec (y - inject_Z (Qfloor y)) (1 # 2));
    try (destruct (Z.even (Qfloor y)); lia); try lia; lra.
Qed.

Lemma Qmake_div (n : Z) (d : positive) :
  (n # d == inject_Z n / inject_Z (Z.pos d))%Q.
Proof. apply Qmake_Qdiv. Qed.

(** [exponent] is the binary exponent of a positive number. *)
Lemma exponent_spec (x : Q) :
  (0 < x)%Q →
  (Float.two_pow (Float.exponent x) <= x)%Q
  ∧ (x < Float.two_pow (Float.exponent x + 1))%Q.
Proof.
  intros Hx. unfold Float.exponent.
  destruct x as [n d]. simpl Qnum. simpl Qden.
  assert (Hn : (0 < n)%Z).
  { unfold Qlt in Hx. simpl in Hx. lia. }
  set (a := Z.log2 n). set (b := Z.log2 (Z.pos d)).
  destruct (Z.log2_spec n Hn) as [Ha1 Ha2]. fold a in Ha1, Ha2.
  destruct (Z.log2_spec (Z.pos d)) as [Hb1 Hb2]; [lia|].
  fold b in Hb1, Hb2.
  assert (Ha0 : (0 <= a)%Z) by apply Z.log2_nonneg.
  assert (Hb0 : (0 <= b)%Z) by apply Z.log2_nonneg.
  rewrite Z.pow_succ_r in Ha2, Hb2 by done.
  assert (Hpa : (0 < 2 ^ a)%Z) by lia.
  assert (Hpb : (0 < 2 ^ b)%Z) by (apply Z.pow_pos_nonneg; lia).
  assert (Hlow : (Float.two_pow (a - b - 1) <= n # d)%Q).
  { replace (a - b - 1)%Z with (a + - (b + 1))%Z by lia.
    rewrite two_pow_plus. unfold Float.two_pow at 2.
    rewrite Qpower_opp. fold (Float.two_pow (b + 1)).
    rewrite !two_pow_Z by lia.
    rewrite Z.pow_add_r, Z.pow_1_r by lia.
    apply Qle_shift_div_r.
    - rewrite <- (Zlt_Qlt 0). lia.
    - rewrite Qmake_div. unfold Qdiv.
      rewrite <- Qmult_assoc, (Qmult_comm (/ _)), Qmult_assoc.
      apply Qle_shift_div_l; [rewrite <- (Zlt_Qlt 0); lia|].
      rewrite <- !inject_Z_mult, <- Zle_Qle. nia. }
  assert (Hhigh : (n # d < Float.two_pow (a - b + 1))%Q).
  { replace (a - b + 1)%Z with ((a + 1) + - b)%Z by lia.
    rewrite two_pow_plus. unfold Float.two_pow at 2.
    rewrite Qpower_opp. fold (Float.two_pow b).
    rewrite !two_pow_Z by lia.
    rewrite Z.pow_add_r, Z.pow_1_r by lia.
    apply Qlt_shift_div_l.
    - rewrite <- (Zlt_Qlt 0). lia.
    - rewrite Qmake_div. unfold Qdiv.
      rewrite <- Qmult_assoc, (Qmult_comm (/ _)), Qmult_assoc.
      apply Qlt_shift_div_r; [rewrite <- (Zlt_Qlt 0); lia|].
      rewrite <- !inject_Z_mult, <- Zlt_Qlt. nia. }
  destruct (Qle_bool (Float.two_pow (a - b)) (n # d)) eqn:E.
  - apply Qle_bool_iff in E. by split.
  - replace (a - b - 1 + 1)%Z with (a - b)%Z by lia. split; [done|].
    apply Qnot_le_lt. intros Hle. apply Qle_bool_iff in Hle. congruence.
Qed.

Lemma exponent_mono (x y : Q) :
  (0 < x)%Q → (x <= y)%Q → (Float.exponent x <= Float.exponent y)%Z.
Proof.
  intros Hx Hxy.
  destruct (exponent_spec x Hx) as [Hx1 _].
  destruct (exponent_spec y) as [_ Hy2]; [lra|].
  assert (Hlt : (Float.two_pow (Float.exponent x)
                 < Float.two_pow (Float.exponent y + 1))%Q) by lra.
  apply two_pow_lt_inv in Hlt. lia.
Qed.

Lemma rounded_ge (x : Q) (q k : Z) :
  (inject_Z k * Float.two_pow q <= x)%Q →
  (inject_Z k * Float.two_pow q
   <= inject_Z (Float.nearest_even (x / Float.two_pow q))
      * Float.two_pow q)%Q.
Proof.
  intros Hk. pose proof (two_pow_pos q) as Hq.
  apply Qmult_le_compat_r; [|lra].
  rewrite <- Zle_Qle. apply nearest_even_ge.
  by apply Qle_shift_div_l.
Qed.

Lemma rounded_le (x : Q) (q k : Z) :
  (x <= inject_Z k * Float.two_pow q)%Q →
  (inject_Z (Float.nearest_even (x / Float.two_pow q)) * Float.two_pow q
   <= inject_Z k * Float.two_pow q)%Q.
Proof.
  intros Hk. pose proof (two_pow_pos q) as Hq.
  apply Qmult_le_compat_r; [|lra].
  rewrite <- Zle_Qle. apply nearest_even_le.
  by apply Qle_shift_div_r.
Qed.

Lemma rounded_mono (x y : Q) :
  (0 < x)%Q → (x <= y)%Q → (Float.rounded x <= Float.rounded y)%Q.
Proof.
  intros Hx Hxy. unfold Float.rounded.
  pose proof (exponent_mono x y Hx Hxy) as He.
  destruct (exponent_spec x Hx) as [_ Hx2].
  destruct (exponent_spec y) as [Hy1 _]; [lra|].
  set (ex := Float.exponent x) in *. set (ey := Float.exponent y) in *.
  set (qx := Z.max (ex - 52) (-1074)). set (qy := Z.max (ey - 52) (-1074)).
  destruct (decide (qx = qy)) as [E|E].
  - rewrite E. pose proof (two_pow_pos qy) as Hq.
    apply Qmult_le_compat_r; [|lra].
    rewrite <- Zle_Qle. apply nearest_even_mono.
    apply Qmult_le_compat_r; [done|].
    apply Qlt_le_weak, Qinv_lt_0_compat, Hq.
  - assert (Hqy : qy = (ey - 52)%Z) by lia.
    set (K := Z.max (ex + 1 - qx) 0).
    apply (Qle_trans _ (inject_Z (2 ^ K) * Float.two_pow qx)).
    { apply rounded_le. rewrite <- two_pow_Z, <- two_pow_plus by lia.
      apply (Qle_trans _ (Float.two_pow (ex + 1))); [lra|].
      apply two_pow_le. lia. }
    apply (Qle_trans _ (inject_Z (2 ^ 52) * Float.two_pow qy)).
    { rewrite <- !two_pow_Z, <- !two_pow_plus by lia.
      apply two_pow_le. lia. }
    apply rounded_ge. rewrite <- two_pow_Z, <- two_pow_plus by lia.
    replace (52 + qy)%Z with ey by lia. done.
Qed.

Lemma rounded_nonneg (x : Q) : (0 <= x)%Q → (0 <= Float.rounded x)%Q.
Proof.
  intros Hx. unfold Float.rounded.
  set (q := Z.max (Float.exponent x - 52) (-1074)).
  pose proof (two_pow_pos q) as Hq.
  apply Qmult_le_0_compat; [|lra].
  rewrite <- (Zle_Qle 0). apply nearest_even_ge.
  apply Qle_shift_div_l; [done|].
  change (inject_Z 0) with 0%Q. by rewrite Qmult_0_l.
Qed.

Lemma round_pos_rounded (x : Q) :
  Float.round_pos x
  = if Qle_bool (Float.two_pow 1024) (Float.rounded x)
    then Float.two_pow 1024 else Float.rounded x.
Proof. reflexivity. Qed.

Lemma round_pos_mono (x y : Q) :
  (0 < x)%Q → (x <= y)%Q → (Float.round_pos x <= Float.round_pos y)%Q.
Proof.
  intros Hx Hxy. rewrite !round_pos_rounded.
  pose proof (rounded_mono x y Hx Hxy) as Hr.
  destruct (Qle_bool (Float.two_pow 1024) (Float.rounded x)) eqn:Ex;
    destruct (Qle_bool (Float.two_pow 1024) (Float.rounded y)) eqn:Ey.
  - apply Qle_refl.
  - apply Qle_bool_iff in Ex.
    assert (Hle : (Float.two_pow 1024 <= Float.rounded y)%Q)
      by (by apply (Qle_trans _ (Float.rounded x))).
    apply Qle_bool_iff in Hle. congruence.
  - destruct (Qle_bool (Float.two_pow 1024) (Float.rounded x)) eqn:Ex';
      [done|].
    apply Qlt_le_weak, Qnot_le_lt. intros Hle.
    apply Qle_bool_iff in Hle. congruence.
  - done.
Qed.

Lemma round_pos_nonneg (x : Q) : (0 <= x)%Q → (0 <= Float.round_pos x)%Q.
Proof.
  intros Hx. rewrite round_pos_rounded.
  destruct (Qle_bool (Float.two_pow 1024) (Float.rounded x)).
  - apply Qlt_le_weak, two_pow_pos.
  - by apply rounded_nonneg.
Qed.

(** The Float.rounded value depends on the number only, not on the fraction
    that stands for it. *)
Lemma round_proper (x y : Q) : (x == y)%Q → Float.round x = Float.round y.
Proof.
  intros Hxy. unfold Float.round. by rewrite (Qred_complete x y Hxy).
Qed.

Lemma round_0 : Float.round 0 = 0%Q.
Proof. reflexivity. Qed.

(** Rounding is monotone. *)
Lemma round_mono (x y : Q) :
  (x <= y)%Q → (Float.round x <= Float.round y)%Q.
Proof.
  intros Hxy. unfold Float.round.
  pose proof (Qred_correct x) as Hx. pose proof (Qred_correct y) as Hy.
  set (x' := Qred x) in *. set (y' := Qred y) in *.
  destruct (Qcompare_spec x' 0) as [Ex|Ex|Ex];
    destruct (Qcompare_spec y' 0) as [Ey|Ey|Ey]; try lra.
  - apply round_pos_nonneg. lra.
  - assert (0 <= Float.round_pos (- x'))%Q
      by (apply round_pos_nonneg; lra). lra.
  - assert (Float.round_pos (- y') <= Float.round_pos (- x'))%Q
      by (apply round_pos_mono; lra). lra.
  - assert (0 <= Float.round_pos (- x'))%Q
      by (apply round_pos_nonneg; lra).
    assert (0 <= Float.round_pos y')%Q
      by (apply round_pos_nonneg; lra). lra.
  - apply round_pos_mono; lra.
Qed.

Lemma round_sign (x : Q) :
  ((x <= 0)%Q → (Float.round x <= 0)%Q)
  ∧ ((0 <= x)%Q → (0 <= Float.round x)%Q)
  ∧ ((Float.two_pow (-1074) <= x)%Q → (0 < Float.round x)%Q).
Proof.
  split; [|split]; intros Hx.
  - rewrite <- round_0. by apply round_mono.
  - rewrite <- round_0. by apply round_mono.
  - apply (Qlt_le_trans _ (Float.round (Float.two_pow (-1074))));
      [|by apply round_mono].
    vm_compute. reflexivity.
Qed.

(** The machine product: monotone in the exact product, and the same
    for equal exact products. *)
Lemma mul_mono (x y x' y' : Q) :
  (x * y <= x' * y')%Q → (Float.mul x y <= Float.mul x' y')%Q.
Proof. apply round_mono. Qed.


Lemma mul_0_l (y : Q) : Float.mul 0 y = 0%Q.
Proof.
  unfold Float.mul. rewrite (round_proper (0 * y) 0); [done|].
  apply Qmult_0_l.
Qed.

Section ArbiterFacts.

Context `{SetOrder} `{Embedder}.
Variable format_percent : Q → string.

Lemma get_response_pick (self : Hybrid.t) (query : string) (rc : bool)
    (rule_matches nlp_matches : list (faq * Q)) :
  Rule.find_best_match (Hybrid.rule_bot self) query 1 = Some rule_matches →
  NLP.find_best_match (Hybrid.nlp_bot self) query 1 = Some nlp_matches →
  Hybrid.get_response format_percent self query rc
  = match Hybrid.pick self rule_matches nlp_matches with
    | None => Some (Hybrid.no_answer, self)
    | Some (best_match, final_score, method) =>
        Some (if rc
              then answer best_match
                   +:+ Hybrid.confidence format_percent final_score method
              else answer best_match,
              Hybrid.log self {| i_query := query;
                                 i_response := answer best_match;
                                 i_score := final_score;
                                 i_method := Some method |})
    end.
Proof.
  intros Hr Hn. unfold Hybrid.get_response. rewrite Hr, Hn. simpl.
  by destruct (Hybrid.pick self rule_matches nlp_matches)
    as [[[best_match final_score] method]|].
Qed.

Lemma pick_rule (self : Hybrid.t) lex lex_score lex_rest nlp_matches :
  (Float.mul (Hybrid.top_score nlp_matches) (Hybrid.nlp_weight self)
   < Float.mul lex_score (Hybrid.rule_weight self))%Q →
  Hybrid.pick self ((lex, lex_score) :: lex_rest) nlp_matches
  = Some (lex, lex_score, "rule-based").
Proof.
  intros Hlt. apply Qltb_lt in Hlt. unfold Hybrid.pick. simpl.
  by rewrite Hlt.
Qed.

Lemma pick_semantic (self : Hybrid.t) rule_matches sem sem_score sem_rest :
  (Float.mul (Hybrid.top_score rule_matches) (Hybrid.rule_weight self)
   <= Float.mul sem_score (Hybrid.nlp_weight self))%Q →
  Hybrid.pick self rule_matches ((sem, sem_score) :: sem_rest)
  = Some (sem, sem_score, "semantic").
Proof.
  intros Hle. apply Qltb_ge in Hle. unfold Hybrid.pick. simpl.
  by rewrite Hle.
Qed.

End ArbiterFacts.

(** C2. When both matchers have a candidate, the arbiter picks the method
    whose score times its weight is the higher one, the two products being
    the floats that the code computes and compares; the score it records
    in the history and displays is the unweighted score of that method.
    Rounding is monotone: whenever the exact product of the semantic side
    is at least that of the lexical side, the semantic method is picked. *)
Theorem arbiter_picks_higher_weighted `{SetOrder} `{Embedder}
    (format_percent : Q → string) (self : Hybrid.t) (query : string)
    (return_confidence : bool)
    (lex sem : faq) (lex_score sem_score : Q)
    (lex_rest sem_rest : list (faq * Q)) :
  Rule.find_best_match (Hybrid.rule_bot self) query 1
  = Some ((lex, lex_score) :: lex_rest) →
  NLP.find_best_match (Hybrid.nlp_bot self) query 1
  = Some ((sem, sem_score) :: sem_rest) →
  let rule_weighted := Float.mul lex_score (Hybrid.rule_weight self) in
  let nlp_weighted := Float.mul sem_score (Hybrid.nlp_weight self) in
  let selects (best : faq) (score : Q) (method : string) :=
    ∃ self',
      Hybrid.get_response format_percent self query return_confidence
      = Some (if return_confidence
              then answer best
                   +:+ Hybrid.confidence format_percent score method
              else answer best, self')
      ∧ Hybrid.conversation_history self'
        = Hybrid.conversation_history self
          ++ [{| i_query := query; i_response := answer best;
                 i_score := score; i_method := Some method |}]
      ∧ Hybrid.rule_bot self' = Hybrid.rule_bot self
      ∧ Hybrid.nlp_bot self' = Hybrid.nlp_bot self
      ∧ Hybrid.rule_weight self' = Hybrid.rule_weight self
      ∧ Hybrid.nlp_weight self' = Hybrid.nlp_weight self in
  ((nlp_weighted < rule_weighted)%Q → selects lex lex_score "rule-based")
  ∧ ((rule_weighted < nlp_weighted)%Q → selects sem sem_score "semantic")
  ∧ ((lex_score * Hybrid.rule_weight self
      <= sem_score * Hybrid.nlp_weight self)%Q →
     selects sem sem_score "semantic").
Proof.
  intros Hr Hn rule_weighted nlp_weighted selects.
  assert (Hsem : (rule_weighted <= nlp_weighted)%Q →
                 selects sem sem_score "semantic").
  { intros Hle. eexists.
    rewrite (get_response_pick _ _ _ _ _ _ Hr Hn).
    rewrite pick_semantic by done. split; [done|]. by repeat split. }
  split; [|split].
  - intros Hlt. eexists.
    rewrite (get_response_pick _ _ _ _ _ _ Hr Hn).
    rewrite pick_rule by done. split; [done|]. by repeat split.
  - intros Hlt. by apply Hsem, Qlt_le_weak.
  - intros Hle. by apply Hsem, mul_mono.
Qed.

(** The example of the specification: lexical score 0.9, semantic score
    0.95, weights 0.3 and 0.7. *)
Lemma arbiter_picks_higher_weighted_witness :
  let rule := Rule.__init__ (H := cpython_order) [abc_faq] (4 # 10) in
  let nlp := NLP.__init__ (H := constant_embedder (95 # 100))
               [abc_faq] (5 # 10) in
  let self := Hybrid.__init__ (H0 := constant_embedder (95 # 100)) rule nlp
                (3 # 10) (7 # 10) in
  ∃ lex_score self',
    (lex_score == 9 # 10)%Q
    ∧ Rule.find_best_match (H := cpython_order) rule "abc a" 1
      = Some [(abc_faq, lex_score)]
    ∧ NLP.find_best_match (H := constant_embedder (95 # 100)) nlp "abc a" 1
      = Some [(abc_faq, 95 # 100)]
    ∧ (Float.mul lex_score (3 # 10) < Float.mul (95 # 100) (7 # 10))%Q
    ∧ Hybrid.get_response (H := cpython_order)
        (H0 := constant_embedder (95 # 100)) no_percent self "abc a" false
      = Some (answer abc_faq, self')
    ∧ Hybrid.conversation_history self'
      = [{| i_query := "abc a"; i_response := answer abc_faq;
            i_score := 95 # 100; i_method := Some "semantic" |}].
Proof.
  intros rule nlp self.
  assert (H1 : Rule.find_best_match (H := cpython_order) rule "abc a" 1
               = Some [(abc_faq, combined_score "abc a" "abc")])
    by (vm_compute; reflexivity).
  assert (H2 : NLP.find_best_match (H := constant_embedder (95 # 100))
                 nlp "abc a" 1 = Some [(abc_faq, 95 # 100)])
    by (vm_compute; reflexivity).
  assert (H3 : (Float.mul (combined_score "abc a" "abc") (3 # 10)
                < Float.mul (95 # 100) (7 # 10))%Q)
    by (vm_compute; reflexivity).
  destruct (proj1 (proj2 (arbiter_picks_higher_weighted
                            (H := cpython_order)
                            (H0 := constant_embedder (95 # 100)) no_percent
                            self "abc a" false abc_faq abc_faq _ _ [] []
                            H1 H2)) H3)
    as (self' & Hresp & Hhist & _).
  exists (combined_score "abc a" "abc"), self'.
  split; [vm_compute; reflexivity|].
  split; [exact H1|]. split; [exact H2|]. split; [exact H3|].
  split; [exact Hresp|exact Hhist].
Defined.

(** Two products that differ, the lexical one being the higher, can
    round to the same float; the arbiter then sees a tie.  Here the
    lexical score is 0.016, the semantic score 0.006857142857142857 and
    the weights are 0.3 and 0.7: both products are the float 0.0048, and
    the record carries the method ['semantic']. *)
Lemma products_rounding_to_one_float :
  let sem_score := Float.round (6857142857142857 # 1000000000000000000) in
  let rule_weight := Float.round (3 # 10) in
  let nlp_weight := Float.round (7 # 10) in
  let f := Faq "accccccccccccccccccccccccccccc" "The answer." "general" in
  let rule := Rule.__init__ (H := cpython_order) [f] (4 # 10) in
  let nlp := NLP.__init__ (H := constant_embedder sem_score) [f] (5 # 10) in
  let self := Hybrid.__init__ (H0 := constant_embedder sem_score) rule nlp
                rule_weight nlp_weight in
  ∃ lex_score self',
    Rule.find_best_match (H := cpython_order) rule "abbbbbbbbbbbbbbbbbbb" 1
    = Some [(f, lex_score)]
    ∧ (lex_score == 16 # 1000)%Q
    ∧ (sem_score * nlp_weight < lex_score * rule_weight)%Q
    ∧ Float.mul lex_score rule_weight = Float.mul sem_score nlp_weight
    ∧ Hybrid.get_response (H := cpython_order)
        (H0 := constant_embedder sem_score) no_percent self
        "abbbbbbbbbbbbbbbbbbb" false
      = Some ("The answer.", self')
    ∧ Hybrid.conversation_history self'
      = [{| i_query := "abbbbbbbbbbbbbbbbbbb"; i_response := "The answer.";
            i_score := sem_score; i_method := Some "semantic" |}].
Proof.
  intros sem_score rule_weight nlp_weight f rule nlp self.
  eexists _, _.
  split; [vm_compute; reflexivity|].
  split; [vm_compute; reflexivity|].
  split; [vm_compute; reflexivity|].
  split; [vm_compute; reflexivity|].
  split; vm_compute; reflexivity.
Qed.




(** C1: the arbiter applies no threshold.  With the threshold 0.4 on both
    engines, the query ["banana"] has the semantic score 0.1 and a lower
    lexical score; the arbiter returns the answer of the entry, not a
    fallback with alternatives, and records the score 0.1. *)
Theorem hybrid_answers_below_threshold :
  let rule := Rule.__init__ (H := cpython_order) [password_faq] (4 # 10) in
  let nlp := NLP.__init__ (H := constant_embedder (1 # 10))
               [password_faq] (4 # 10) in
  let self := Hybrid.__init__ (H0 := constant_embedder (1 # 10)) rule nlp
                (3 # 10) (7 # 10) in
  Hybrid.get_response (H := cpython_order)
    (H0 := constant_embedder (1 # 10)) no_percent self "banana" false
  = Some ("Click Forgot Password.",
          Hybrid.log self {| i_query := "banana";
                             i_response := "Click Forgot Password.";
                             i_score := 1 # 10;
                             i_method := Some "semantic" |})
  ∧ (1 # 10 < Rule.threshold rule)%Q
  ∧ (1 # 10 < NLP.threshold nlp)%Q
  ∧ NLP.get_response (H := constant_embedder (1 # 10)) no_percent nlp
      "banana" false
    = Some (NLP._get_fallback_response ["How do I reset my password?"],
            NLP.log nlp {| i_query := "banana";
                           i_response := "Click Forgot Password.";
                           i_score := 1 # 10;
                           i_method := Some "semantic" |}).
Proof.
  intros rule nlp self.
  split; [vm_compute; reflexivity|].
  split; [vm_compute; reflexivity|].
  split; [vm_compute; reflexivity|].
  vm_compute; reflexivity.
Qed.

(** C3: a lexical candidate of score 0 is not picked when the semantic
    matcher has none.  The lexical matcher returns the entry ["aaa"] with
    score 0 for the query ["zzz"], the semantic engine holds no embedding,
    and the arbiter answers that it found nothing and records nothing. *)
Theorem lone_lexical_candidate_dropped :
  let rule := Rule.__init__ (H := cpython_order) [aaa_faq] (4 # 10) in
  let nlp := NLP.__init__ (H := constant_embedder (1 # 2)) [] (5 # 10) in
  let self := Hybrid.__init__ (H0 := constant_embedder (1 # 2)) rule nlp
                (3 # 10) (7 # 10) in
  (∃ score, Rule.find_best_match (H := cpython_order) rule "zzz" 1
            = Some [(aaa_faq, score)] ∧ (score == 0)%Q)
  ∧ NLP.find_best_match (H := constant_embedder (1 # 2)) nlp "zzz" 1
    = Some []
  ∧ Hybrid.get_response (H := cpython_order)
      (H0 := constant_embedder (1 # 2)) no_percent self "zzz" false
    = Some (Hybrid.no_answer, self).
Proof.
  intros rule nlp self.
  split; [eexists; split; vm_compute; reflexivity|].
  split; vm_compute; reflexivity.
Qed.

(** * Further properties of the engines *)

(** ** The keyword score *)

Lemma Qdiv_eq_1 (a b : Q) : ¬ (b == 0)%Q → (a / b == 1)%Q ↔ (a == b)%Q.
Proof.
  intros Hb. split; intros E.
  - rewrite <- (Qmult_div_r a b Hb), E. apply Qmult_1_r.
  - rewrite E. unfold Qdiv. by apply Qmult_inv_r.
Qed.

Lemma Qdiv_eq_0 (a b : Q) : ¬ (b == 0)%Q → (a / b == 0)%Q ↔ (a == 0)%Q.
Proof.
  intros Hb. split; intros E.
  - rewrite <- (Qmult_div_r a b Hb), E. apply Qmult_0_r.
  - rewrite E. unfold Qdiv. apply Qmult_0_l.
Qed.

Lemma inject_nat_nonzero (n : nat) :
  n ≠ 0 → ¬ (inject_Z (Z.of_nat n) == 0)%Q.
Proof.
  intros Hn E. unfold Qeq in E. simpl in E. lia.
Qed.

Lemma inject_nat_eq (n m : nat) :
  (inject_Z (Z.of_nat n) == inject_Z (Z.of_nat m))%Q ↔ n = m.
Proof. unfold Qeq. simpl. lia. Qed.

Lemma union_size_nonzero (A B : gset string) : A ≠ ∅ → size (A ∪ B) ≠ 0.
Proof.
  intros HA E. apply size_empty_iff in E. apply HA.
  apply leibniz_equiv. set_solver.
Qed.

Lemma jaccard_nonempty (A B : gset string) :
  A ≠ ∅ →
  Spec.jaccard A B
  = (inject_Z (Z.of_nat (size (A ∩ B)))
     / inject_Z (Z.of_nat (size (A ∪ B))))%Q.
Proof.
  intros HA. unfold Spec.jaccard. rewrite bool_decide_false; [done|].
  intros [E|E]; [|done]. apply HA. set_solver.
Qed.

Lemma jaccard_empty (B : gset string) : Spec.jaccard ∅ B = 0%Q.
Proof. unfold Spec.jaccard. rewrite bool_decide_true; [done|by right]. Qed.

(** X1. The keyword score is symmetric: swapping the query and the
    question gives an equal score. *)
Theorem keyword_score_symmetric (text1 text2 : string) :
  (_keyword_match_score text1 text2 == _keyword_match_score text2 text1)%Q.
Proof.
  rewrite !_keyword_match_score_jaccard.
  set (A := _extract_keywords text1). set (B := _extract_keywords text2).
  destruct (decide (A = ∅)) as [HA|HA], (decide (B = ∅)) as [HB|HB].
  - rewrite HA, HB. reflexivity.
  - rewrite HA, jaccard_empty, (jaccard_nonempty B ∅ HB).
    symmetry. apply Qdiv_eq_0.
    + apply inject_nat_nonzero. by apply union_size_nonzero.
    + replace (B ∩ ∅) with (∅ : gset string) by set_solver.
      rewrite size_empty. reflexivity.
  - rewrite HB, jaccard_empty, (jaccard_nonempty A ∅ HA).
    apply Qdiv_eq_0.
    + apply inject_nat_nonzero. by apply union_size_nonzero.
    + replace (A ∩ ∅) with (∅ : gset string) by set_solver.
      rewrite size_empty. reflexivity.
  - rewrite (jaccard_nonempty A B HA), (jaccard_nonempty B A HB).
    replace (B ∩ A) with (A ∩ B) by set_solver.
    replace (B ∪ A) with (A ∪ B) by set_solver.
    reflexivity.
Qed.

(** The keyword score vanishes exactly when no keyword is shared. *)
Lemma keyword_score_zero (query faq_question : string) :
  (_keyword_match_score query faq_question == 0)%Q
  ↔ _extract_keywords query ∩ _extract_keywords faq_question = ∅.
Proof.
  rewrite !_keyword_match_score_jaccard.
  set (A := _extract_keywords query).
  set (B := _extract_keywords faq_question).
  destruct (decide (A = ∅)) as [HA|HA].
  - rewrite HA, jaccard_empty.
    split; [intros _; set_solver|reflexivity].
  - rewrite (jaccard_nonempty A B HA).
    pose proof (union_size_nonzero A B HA) as Hsize.
    rewrite Qdiv_eq_0 by (by apply inject_nat_nonzero).
    change 0%Q with (inject_Z (Z.of_nat 0)). rewrite inject_nat_eq.
    rewrite size_empty_iff. split; intros E.
    + by apply leibniz_equiv.
    + by rewrite E.
Qed.

(** X2. The keyword score is 1 exactly when the query has a keyword and
    the question yields the same set of keywords; it is 0 exactly when the
    two share no keyword. *)
Theorem keyword_score_extremes (query faq_question : string) :
  ((_keyword_match_score query faq_question == 1)%Q
   ↔ _extract_keywords query ≠ ∅
     ∧ _extract_keywords query = _extract_keywords faq_question)
  ∧ ((_keyword_match_score query faq_question == 0)%Q
     ↔ _extract_keywords query ∩ _extract_keywords faq_question = ∅).
Proof.
  split; [|apply keyword_score_zero].
  rewrite !_keyword_match_score_jaccard.
  set (A := _extract_keywords query).
  set (B := _extract_keywords faq_question).
  destruct (decide (A = ∅)) as [HA|HA].
  - rewrite HA, jaccard_empty.
    split; [intros E; discriminate E|by intros [? _]].
  - rewrite (jaccard_nonempty A B HA).
    pose proof (union_size_nonzero A B HA) as Hsize.
    rewrite Qdiv_eq_1 by (by apply inject_nat_nonzero).
    rewrite inject_nat_eq. split.
    + intros E. split; [done|].
      assert (Heq : A ∩ B = A ∪ B).
      { apply set_subseteq_size_eq; [set_solver|lia]. }
      apply set_eq. intros x. split; intros Hx.
      * assert (x ∈ A ∩ B) by (rewrite Heq; set_solver). set_solver.
      * assert (x ∈ A ∩ B) by (rewrite Heq; set_solver). set_solver.
    + intros [_ E]. rewrite <- E.
      replace (A ∩ A) with A by set_solver.
      by replace (A ∪ A) with A by set_solver.
Qed.

(** X3. An entry that shares a keyword with the query has a positive
    score; an entry that shares none scores at most 0.4, the weight of the
    similarity ratio. *)
Theorem combined_score_by_overlap (query faq_question : string) :
  (_extract_keywords query ∩ _extract_keywords faq_question ≠ ∅ →
   (0 < combined_score query faq_question)%Q)
  ∧ (_extract_keywords query ∩ _extract_keywords faq_question = ∅ →
     (combined_score query faq_question <= 4 # 10)%Q).
Proof.
  pose proof (keyword_score_zero query faq_question) as Hzero.
  pose proof (_calculate_similarity_range query faq_question) as [Hr0 Hr1].
  pose proof (jaccard_range (_extract_keywords query)
                (_extract_keywords faq_question)) as [Hj0 _].
  rewrite <- _keyword_match_score_jaccard in Hj0.
  unfold combined_score. split; intros Hcap.
  - assert (Hpos : (0 < _keyword_match_score query faq_question)%Q).
    { apply Qnot_le_lt. intros Hle. apply Hcap, Hzero.
      by apply Qle_antisym. }
    lra.
  - apply Hzero in Hcap. rewrite Hcap. lra.
Qed.

Lemma combined_score_by_overlap_witness :
  _extract_keywords "reset password"
  ∩ _extract_keywords "How do I reset my password?" ≠ ∅
  ∧ (0 < combined_score "reset password" "How do I reset my password?")%Q.
Proof.
  assert (H1 : _extract_keywords "reset password"
               ∩ _extract_keywords "How do I reset my password?" ≠ ∅).
  { intros E. apply (f_equal size) in E. vm_compute in E. discriminate E. }
  split; [exact H1|].
  exact (proj1 (combined_score_by_overlap "reset password"
                  "How do I reset my password?") H1).
Defined.

(** ** The shape of the keyword index *)

Lemma register_lookup i index kw kw' :
  register i index kw !! kw'
  = if decide (kw = kw') then Some (ids_of index kw ++ [i])
    else index !! kw'.
Proof.
  unfold register, ids_of. rewrite lookup_alter.
  destruct (decide (kw = kw')) as [<-|Hne].
  - destruct (index !! kw) as [ids|] eqn:E.
    + by rewrite E.
    + by rewrite lookup_insert_eq.
  - destruct (index !! kw) as [ids|] eqn:E; [done|].
    by rewrite lookup_insert_ne.
Qed.

Lemma register_all_lookup i kws index kw :
  NoDup kws →
  register_all i kws index !! kw
  = if decide (kw ∈ kws) then Some (ids_of index kw ++ [i])
    else index !! kw.
Proof.
  unfold register_all. revert index.
  induction kws as [|k kws IH]; intros index Hnd; cbn [foldl].
  - case_decide as Hin; [by apply elem_of_nil in Hin|done].
  - apply NoDup_cons in Hnd as [Hk Hnd]. rewrite IH by done.
    destruct (decide (kw ∈ kws)) as [Hin|Hnin].
    + assert (k ≠ kw) by (intros ->; done).
      unfold ids_of. rewrite register_lookup.
      rewrite decide_False by done.
      case_decide as Hin'; [done|]. destruct Hin'. by right.
    + rewrite register_lookup.
      destruct (decide (k = kw)) as [->|Hne].
      * case_decide as Hin'; [done|]. destruct Hin'. by left.
      * case_decide as Hin'; [|done].
        apply elem_of_cons in Hin' as [->|?]; done.
Qed.

Section IndexShape.

Context `{SetOrder}.

Lemma iter_keywords_NoDup (s : gset string) : NoDup (iter_keywords s).
Proof. rewrite iter_keywords_perm. apply NoDup_elements. Qed.

Lemma build_from_lookup n faqs index kw :
  build_from n faqs index !! kw
  = match entries_from n kw faqs with
    | [] => index !! kw
    | new => Some (ids_of index kw ++ new)
    end.
Proof.
  revert n index. induction faqs as [|f faqs IH]; intros n index; simpl.
  - done.
  - rewrite IH. unfold ids_of at 1.
    rewrite register_all_lookup by apply iter_keywords_NoDup.
    destruct (decide (kw ∈ _extract_keywords (question f))) as [Hin|Hnin].
    + rewrite decide_True by (by apply iter_keywords_elem). simpl.
      destruct (entries_from (S n) kw faqs) as [|j js]; [done|].
      by rewrite <- app_assoc.
    + rewrite decide_False by (by rewrite iter_keywords_elem). simpl.
      by destruct (entries_from (S n) kw faqs).
Qed.

Lemma _build_keyword_index_lookup faqs kw :
  _build_keyword_index faqs !! kw
  = match entries_with kw faqs with
    | [] => None
    | ids => Some ids
    end.
Proof.
  unfold _build_keyword_index, entries_with. rewrite build_from_lookup.
  unfold ids_of. rewrite lookup_empty. simpl.
  by destruct (entries_from 0 kw faqs).
Qed.

End IndexShape.

Lemma entries_from_elem n kw faqs i :
  i ∈ entries_from n kw faqs
  ↔ ∃ k f, faqs !! k = Some f ∧ i = n + k
           ∧ kw ∈ _extract_keywords (question f).
Proof.
  revert n. induction faqs as [|f faqs IH]; intros n; simpl.
  - split; [by intros ?%elem_of_nil|]. intros (k & g & Hk & _).
    by rewrite lookup_nil in Hk.
  - rewrite elem_of_app, IH. split.
    + intros [Hi|(k & g & Hk & -> & Hkw)].
      * destruct (decide (kw ∈ _extract_keywords (question f)));
          [|by apply elem_of_nil in Hi].
        apply list_elem_of_singleton in Hi as ->.
        exists 0, f. split; [done|]. split; [lia|done].
      * exists (S k), g. split; [done|]. split; [lia|done].
    + intros (k & g & Hk & -> & Hkw). destruct k as [|k]; simpl in Hk.
      * simplify_eq. left. rewrite decide_True by done.
        apply list_elem_of_singleton. lia.
      * right. exists k, g. split; [done|]. split; [lia|done].
Qed.

Lemma entries_from_sorted n kw faqs :
  StronglySorted lt (entries_from n kw faqs)
  ∧ Forall (fun i => n ≤ i < n + length faqs) (entries_from n kw faqs).
Proof.
  revert n. induction faqs as [|f faqs IH]; intros n; simpl.
  - split; constructor.
  - destruct (IH (S n)) as [Hs Hb].
    assert (Hb' : Forall (fun i => n ≤ i < n + S (length faqs))
                    (entries_from (S n) kw faqs)).
    { eapply Forall_impl; [apply Hb|]. simpl. lia. }
    destruct (decide (kw ∈ _extract_keywords (question f))); simpl.
    + split.
      * constructor; [done|]. eapply Forall_impl; [apply Hb|]. simpl. lia.
      * constructor; [lia|done].
    + done.
Qed.

(** X4. Under every keyword that it holds, the index lists exactly the
    indices of the entries whose question yields the keyword, in
    increasing order, without repetition and within the corpus; a keyword
    of no entry is not a key, so no list is empty. *)
Theorem keyword_index_lists `{SetOrder} (faqs : list faq) (keyword : string)
    (ids : list nat) :
  _build_keyword_index faqs !! keyword = Some ids →
  ids ≠ []
  ∧ StronglySorted lt ids
  ∧ NoDup ids
  ∧ ∀ i, i ∈ ids
         ↔ ∃ f, faqs !! i = Some f
                ∧ keyword ∈ _extract_keywords (question f).
Proof.
  rewrite _build_keyword_index_lookup. unfold entries_with.
  pose proof (entries_from_sorted 0 keyword faqs) as [Hs _].
  pose proof (entries_from_elem 0 keyword faqs) as He.
  destruct (entries_from 0 keyword faqs) as [|j js] eqn:E; [done|].
  intros [= <-]. split; [done|]. split; [done|]. split.
  - clear He E. induction Hs as [|x l Hs IH Hx]; constructor; [|done].
    intros Hin. eapply Forall_forall in Hx; [|exact Hin]. lia.
  - intros i. rewrite He. split.
    + intros (k & f & Hk & -> & Hkw). by exists f.
    + intros (f & Hi & Hkw). by exists i, f.
Qed.

Lemma keyword_index_lists_witness :
  _build_keyword_index (H := cpython_order) nine_faqs !! "reset"
  = Some [1; 8]
  ∧ StronglySorted lt [1; 8].
Proof.
  assert (H1 : _build_keyword_index (H := cpython_order) nine_faqs
               !! "reset" = Some [1; 8]) by (vm_compute; reflexivity).
  split; [exact H1|].
  exact (proj1 (proj2 (keyword_index_lists (H := cpython_order)
                         nine_faqs "reset" [1; 8] H1))).
Defined.

(** X5. The index does not depend on the order in which Python enumerates
    the keyword sets: any two enumeration orders build the same index. *)
Theorem keyword_index_order_independent (order1 order2 : SetOrder)
    (faqs : list faq) :
  _build_keyword_index (H := order1) faqs
  = _build_keyword_index (H := order2) faqs.
Proof.
  apply map_eq. intros kw.
  by rewrite (_build_keyword_index_lookup (H := order1)),
             (_build_keyword_index_lookup (H := order2)).
Qed.

(** ** What a ranking holds *)

Lemma slice_to_take {A} (l : list A) (k : Z) :
  ∃ n, slice_to l k = take n l.
Proof. unfold slice_to. destruct (k <? 0)%Z; eauto. Qed.

Lemma slice_to_length_eq {A} (l : list A) (k : Z) :
  length (slice_to l k)
  = if (k <? 0)%Z then Z.to_nat (Z.of_nat (length l) + k)
    else Z.to_nat k `min` length l.
Proof.
  unfold slice_to. destruct (k <? 0)%Z eqn:E; rewrite length_take; [|done].
  apply Z.ltb_lt in E. lia.
Qed.

Lemma StronglySorted_take {A} (R : A → A → Prop) (l : list A) (n : nat) :
  StronglySorted R l → StronglySorted R (take n l).
Proof.
  intros Hs. rewrite <- (take_drop n l) in Hs.
  by apply StronglySorted_app_1_l in Hs.
Qed.

Lemma take_cons_head {A} (l : list A) (n : nat) (x : A) (rest : list A) :
  take n l = x :: rest → ∃ rest', l = x :: rest'.
Proof.
  destruct n as [|n], l as [|y l]; simpl; try done.
  intros [= -> _]. by eexists.
Qed.

Section RankingFacts.

Context {A : Type} (key : A → Q).

(** The head of a list sorted by descending key has the greatest key. *)
Lemma sort_desc_head_max (l : list A) (x : A) (rest : list A) (y : A) :
  sort_desc key l = x :: rest → y ∈ l → (key y <= key x)%Q.
Proof.
  intros E Hy.
  pose proof (sort_desc_sorted key l) as Hs. rewrite E in Hs.
  apply StronglySorted_inv in Hs as [_ Hall].
  rewrite <- (sort_desc_perm key l), E in Hy.
  apply elem_of_cons in Hy as [->|Hy]; [apply Qle_refl|].
  by eapply Forall_forall in Hall.
Qed.

End RankingFacts.

(** Every match returned is an entry at a candidate index with its
    combined score, which lies in [0,1]. *)
Lemma find_best_match_entries `{SetOrder} (self : Rule.t) (query : string)
    (top_k : Z) (matches : list (faq * Q)) :
  Rule.find_best_match self query top_k = Some matches →
  Forall (fun m =>
            (∃ idx, idx ∈ Rule._get_candidate_faqs self query
                    ∧ Rule.faqs self !! idx = Some m.1)
            ∧ m.2 = combined_score query (question m.1)
            ∧ (0 <= m.2 <= 1)%Q) matches.
Proof.
  unfold Rule.find_best_match.
  destruct (mapM (Rule.score_candidate self query)
              (Rule._get_candidate_faqs self query)) as [scored|] eqn:Hs;
    [|done].
  simpl. intros [= <-].
  apply mapM_Some in Hs.
  destruct (slice_to_take (sort_desc snd scored) top_k) as [n ->].
  apply Forall_take. rewrite sort_desc_perm.
  apply Forall_forall. intros m Hm.
  apply list_elem_of_lookup in Hm as [i Hi].
  destruct (Forall2_lookup_r _ _ _ _ _ Hs Hi) as (idx & Hidx & Hsc).
  apply score_candidate_Some in Hsc as [Hf Hscore].
  split; [|split; [done|]].
  - exists idx. split; [by eapply list_elem_of_lookup_2|done].
  - rewrite Hscore. apply combined_score_range.
Qed.

(** X6. Whatever [find_best_match] returns is sound: every match is an
    entry of the corpus at a candidate index, paired with its combined
    score, which lies in [0,1]; the matches come by descending score; and
    no candidate scores higher than the first match. *)
Theorem find_best_match_sound `{SetOrder} (self : Rule.t) (query : string)
    (top_k : Z) (matches : list (faq * Q)) :
  Rule.find_best_match self query top_k = Some matches →
  Forall (fun m =>
            (∃ idx, idx ∈ Rule._get_candidate_faqs self query
                    ∧ Rule.faqs self !! idx = Some m.1)
            ∧ m.2 = combined_score query (question m.1)
            ∧ (0 <= m.2 <= 1)%Q) matches
  ∧ StronglySorted (fun x y => (y.2 <= x.2)%Q) matches
  ∧ ∀ best score rest idx f,
      matches = (best, score) :: rest →
      idx ∈ Rule._get_candidate_faqs self query →
      Rule.faqs self !! idx = Some f →
      (combined_score query (question f) <= score)%Q.
Proof.
  intros Hm. split; [by eapply find_best_match_entries|]. revert Hm.
  unfold Rule.find_best_match.
  destruct (mapM (Rule.score_candidate self query)
              (Rule._get_candidate_faqs self query)) as [scored|] eqn:Hs;
    [|done].
  simpl. intros [= <-].
  apply mapM_Some in Hs.
  destruct (slice_to_take (sort_desc snd scored) top_k) as [n ->].
  split.
  - apply StronglySorted_take, (sort_desc_sorted snd).
  - intros best score rest idx f E Hidx Hf.
    apply take_cons_head in E as [rest' E].
    apply list_elem_of_lookup in Hidx as [i Hi].
    destruct (Forall2_lookup_l _ _ _ _ _ Hs Hi) as (m & Hm & Hsc).
    apply score_candidate_Some in Hsc as [Hf' Hscore].
    rewrite Hf in Hf'. injection Hf' as Hf'.
    pose proof (sort_desc_head_max snd scored (best, score) rest' m E) as Hle.
    simpl in Hle. rewrite Hscore, <- Hf' in Hle. apply Hle.
    by eapply list_elem_of_lookup_2.
Qed.

(** On nine entries, none of which shares a keyword with the query:
    every entry is a candidate, three matches come back, in descending
    order of their scores, and no entry scores higher than the first. *)
Lemma find_best_match_sound_witness :
  let self := Rule.__init__ (H := cpython_order) nine_faqs (4 # 10) in
  ∃ m1 m2 m3,
    Rule.find_best_match (H := cpython_order) self "banana" 3
    = Some [m1; m2; m3]
    ∧ (m2.2 <= m1.2)%Q ∧ (m3.2 <= m2.2)%Q
    ∧ (m3.2 < m1.2)%Q
    ∧ m1.2 = combined_score "banana" (question m1.1)
    ∧ ∀ f, f ∈ nine_faqs →
           (combined_score "banana" (question f) <= m1.2)%Q.
Proof.
  intros self.
  assert (Hc : Rule._get_candidate_faqs (H := cpython_order) self "banana"
               = seq 0 9) by (vm_compute; reflexivity).
  destruct (Rule.find_best_match (H := cpython_order) self "banana" 3)
    as [matches|] eqn:E; [|vm_compute in E; discriminate E].
  destruct (find_best_match_sound (H := cpython_order) self "banana" 3
              matches E) as (Hall & Hsorted & Hmax).
  assert (Hlen : ∃ m1 m2 m3, matches = [m1; m2; m3]
                             ∧ (m3.2 < m1.2)%Q).
  { vm_compute in E. injection E as <-. eexists _, _, _.
    split; [reflexivity|]. vm_compute. reflexivity. }
  destruct Hlen as (m1 & m2 & m3 & -> & Hstrict).
  exists m1, m2, m3. split; [reflexivity|].
  apply StronglySorted_inv in Hsorted as [Hsorted H1].
  apply StronglySorted_inv in Hsorted as [_ H2].
  apply Forall_cons in H1 as [H12 _]. apply Forall_cons in H2 as [H23 _].
  apply Forall_cons in Hall as [(_ & Hscore & _) _].
  split; [exact H12|]. split; [exact H23|]. split; [exact Hstrict|].
  split; [exact Hscore|].
  intros f Hf. apply list_elem_of_lookup in Hf as [idx Hidx].
  destruct m1 as [best score].
  apply (Hmax best score [m2; m3] idx f eq_refl); [|exact Hidx].
  rewrite Hc. apply elem_of_seq.
  apply lookup_lt_Some in Hidx. simpl in Hidx. lia.
Defined.

(** X7. The number of matches is what the slice [matches[:top_k]] leaves
    of the candidates: the smaller of [top_k] and the number of candidates
    when [top_k] is not negative, and all but the last [-top_k] candidates
    when it is. *)
Theorem find_best_match_length `{SetOrder} (self : Rule.t) (query : string)
    (top_k : Z) (matches : list (faq * Q)) :
  Rule.find_best_match self query top_k = Some matches →
  let n := length (Rule._get_candidate_faqs self query) in
  length matches
  = if (top_k <? 0)%Z then Z.to_nat (Z.of_nat n + top_k)
    else Z.to_nat top_k `min` n.
Proof.
  unfold Rule.find_best_match.
  destruct (mapM (Rule.score_candidate self query)
              (Rule._get_candidate_faqs self query)) as [scored|] eqn:Hs;
    [|done].
  simpl. intros [= <-].
  apply mapM_Some, Forall2_length in Hs.
  by rewrite slice_to_length_eq, sort_desc_length, <- Hs.
Qed.

Lemma find_best_match_length_witness :
  let self := Rule.__init__ (H := cpython_order) nine_faqs (4 # 10) in
  ∃ matches,
    Rule.find_best_match (H := cpython_order) self "banana" (-2)
    = Some matches
    ∧ length matches = 7.
Proof.
  intros self.
  destruct (Rule.find_best_match (H := cpython_order) self "banana" (-2))
    as [matches|] eqn:E.
  - exists matches. split; [reflexivity|].
    exact (find_best_match_length (H := cpython_order)
             self "banana" (-2) matches E).
  - vm_compute in E. discriminate E.
Defined.

(** ** Responses of the rule-based engine *)

Section RuleResponses.

Context `{SetOrder}.
Variable format_percent : Q → string.

Lemma log_wf (self : Rule.t) (r : interaction) :
  rule_wf self → rule_wf (Rule.log self r).
Proof. intros Hwf kw ids i. apply Hwf. Qed.

Lemma find_best_match_empty (self : Rule.t) (query : string) (top_k : Z) :
  rule_wf self → Rule.faqs self = [] →
  Rule.find_best_match self query top_k = Some [].
Proof.
  intros Hwf Hfaqs.
  assert (Hc : Rule._get_candidate_faqs self query = []).
  { destruct (Rule._get_candidate_faqs self query) as [|i l] eqn:E;
      [done|].
    assert (Hi : i < length (Rule.faqs self)).
    { apply (_get_candidate_faqs_bound self query i Hwf).
      rewrite E. left. }
    rewrite Hfaqs in Hi. simpl in Hi. lia. }
  unfold Rule.find_best_match. rewrite Hc. simpl.
  unfold slice_to. destruct (top_k <? 0)%Z; by rewrite take_nil.
Qed.

(** One step of a session. *)
Lemma get_response_step (self : Rule.t) (query : string) (rc : bool) :
  rule_wf self →
  ∃ response self',
    Rule.get_response format_percent self query rc = Some (response, self')
    ∧ rule_wf self'
    ∧ Rule.faqs self' = Rule.faqs self
    ∧ Rule.threshold self' = Rule.threshold self
    ∧ Rule.keyword_index self' = Rule.keyword_index self
    ∧ ∃ new,
        Rule.conversation_history self'
        = Rule.conversation_history self ++ new
        ∧ i_query <$> new
          = if decide (nonblank query ∧ Rule.faqs self ≠ [])
            then [query] else [].
Proof.
  intros Hwf. destruct (decide (nonblank query)) as [Hq|Hq].
  - destruct (decide (Rule.faqs self = [])) as [Hfaqs|Hfaqs].
    + exists (Rule._get_fallback_response []), self.
      split.
      { unfold Rule.get_response. rewrite bool_decide_false by done.
        by rewrite find_best_match_empty. }
      repeat (split; [done|]). exists [].
      rewrite app_nil_r. split; [done|].
      rewrite decide_False; [done|]. by intros [_ ?].
    + destruct (find_best_match_cons self query 3 Hwf Hfaqs)
        as (best & score & rest & Hm); [lia|].
      pose proof (get_response_matched format_percent self query rc
                    best score rest Hq Hm) as Hr.
      simpl in Hr. eexists _, _. split; [exact Hr|].
      split; [by apply log_wf|]. repeat (split; [done|]).
      eexists [_]. split; [done|]. simpl.
      by rewrite decide_True.
  - exists Rule.clarification, self. split.
    { apply get_response_blank. unfold nonblank in Hq.
      by destruct (decide (Str.strip query = EmptyString)). }
    repeat (split; [done|]). exists [].
    rewrite app_nil_r. split; [done|].
    rewrite decide_False; [done|]. by intros [? _].
Qed.

End RuleResponses.

(** X8. On an empty corpus every query that is not blank gets the plain
    fallback text, and nothing is recorded. *)
Theorem get_response_empty_corpus `{SetOrder} (format_percent : Q → string)
    (self : Rule.t) (query : string) (return_confidence : bool) :
  rule_wf self → Rule.faqs self = [] → nonblank query →
  Rule.get_response format_percent self query return_confidence
  = Some (Rule._get_fallback_response [], self).
Proof.
  intros Hwf Hfaqs Hq. unfold Rule.get_response.
  rewrite bool_decide_false by done.
  by rewrite find_best_match_empty.
Qed.

Lemma get_response_empty_corpus_witness :
  let self := Rule.__init__ (H := cpython_order) [] (4 # 10) in
  rule_wf self ∧ Rule.faqs self = [] ∧ nonblank "hello"
  ∧ Rule.get_response (H := cpython_order) no_percent self "hello" false
    = Some (Rule._get_fallback_response [], self).
Proof.
  intros self.
  assert (H1 : rule_wf self) by apply (__init___wf (H := cpython_order)).
  assert (H2 : Rule.faqs self = []) by reflexivity.
  assert (H3 : nonblank "hello") by (vm_compute; discriminate).
  split; [exact H1|]. split; [exact H2|]. split; [exact H3|].
  exact (get_response_empty_corpus (H := cpython_order) no_percent self
           "hello" false H1 H2 H3).
Defined.

(** X9. A session never fails on a well-formed engine: every query gets a
    response; the corpus, the threshold and the index stay as they are;
    the history only grows, by one record for each query that is not
    blank, in the order of the queries, provided the corpus is not
    empty (and by nothing when it is). *)
Theorem converse_session `{SetOrder} (format_percent : Q → string)
    (self : Rule.t) (queries : list string) (return_confidence : bool) :
  rule_wf self →
  ∃ responses self',
    Rule.converse format_percent self queries return_confidence
    = Some (responses, self')
    ∧ length responses = length queries
    ∧ rule_wf self'
    ∧ Rule.faqs self' = Rule.faqs self
    ∧ Rule.threshold self' = Rule.threshold self
    ∧ Rule.keyword_index self' = Rule.keyword_index self
    ∧ ∃ new,
        Rule.conversation_history self'
        = Rule.conversation_history self ++ new
        ∧ i_query <$> new
          = if decide (Rule.faqs self = []) then []
            else filter nonblank queries.
Proof.
  revert self. induction queries as [|q qs IH]; intros self Hwf.
  - exists [], self. split; [done|]. repeat (split; [done|]).
    exists []. rewrite app_nil_r. split; [done|]. by case_decide.
  - destruct (get_response_step format_percent self q return_confidence Hwf)
      as (r & s1 & Hr & Hwf1 & Hf1 & Ht1 & Hk1 & new1 & Hh1 & Hq1).
    destruct (IH s1 Hwf1)
      as (rs & s2 & Hrs & Hlen & Hwf2 & Hf2 & Ht2 & Hk2 & new2 & Hh2 & Hq2).
    exists (r :: rs), s2. split.
    { simpl. rewrite Hr. simpl. by rewrite Hrs. }
    split; [simpl; by rewrite Hlen|]. split; [done|].
    split; [congruence|]. split; [congruence|]. split; [congruence|].
    exists (new1 ++ new2). split.
    { by rewrite Hh2, Hh1, app_assoc. }
    rewrite fmap_app, Hq1, Hq2, Hf1.
    destruct (decide (Rule.faqs self = [])) as [Hfaqs|Hfaqs].
    + rewrite decide_False; [done|]. by intros [_ ?].
    + rewrite filter_cons. destruct (decide (nonblank q)) as [Hq|Hq].
      * by rewrite decide_True.
      * rewrite decide_False; [done|]. by intros [? _].
Qed.

Lemma converse_session_witness :
  let self := Rule.__init__ (H := cpython_order) [password_faq] (4 # 10) in
  rule_wf self
  ∧ ∃ responses self',
      Rule.converse (H := cpython_order) no_percent self
        ["reset password"; "  "; "banana"] false
      = Some (responses, self')
      ∧ length responses = 3
      ∧ i_query <$> Rule.conversation_history self'
        = ["reset password"; "banana"].
Proof.
  intros self.
  assert (H1 : rule_wf self) by apply (__init___wf (H := cpython_order)).
  split; [exact H1|].
  destruct (converse_session (H := cpython_order) no_percent self
              ["reset password"; "  "; "banana"] false H1)
    as (responses & self' & Hc & Hlen & _ & _ & _ & _ & new & Hh & Hq).
  exists responses, self'. split; [exact Hc|]. split; [exact Hlen|].
  rewrite Hh, fmap_app, Hq. reflexivity.
Defined.

(** X10. A response does not depend on the conversation so far: two
    engines with the same corpus, threshold and index give the same text
    for a query, whatever their histories; in particular [clear_history]
    changes no later response. *)
Theorem response_ignores_history `{SetOrder} (format_percent : Q → string)
    (self other : Rule.t) (query : string) (return_confidence : bool) :
  Rule.faqs other = Rule.faqs self →
  Rule.threshold other = Rule.threshold self →
  Rule.keyword_index other = Rule.keyword_index self →
  fst <$> Rule.get_response format_percent other query return_confidence
  = fst <$> Rule.get_response format_percent self query return_confidence.
Proof.
  destruct self as [faqs1 th1 h1 idx1], other as [faqs2 th2 h2 idx2].
  simpl. intros -> -> ->. unfold Rule.get_response.
  destruct (bool_decide (Str.strip query = EmptyString)); [done|].
  assert (Hm : Rule.find_best_match (Rule.Bot faqs1 th1 h2 idx1) query 3
               = Rule.find_best_match (Rule.Bot faqs1 th1 h1 idx1) query 3)
    by done.
  rewrite Hm.
  destruct (Rule.find_best_match (Rule.Bot faqs1 th1 h1 idx1) query 3)
    as [[|[best score] rest]|]; simpl; [done| |done].
  by destruct (Qltb score th1), return_confidence.
Qed.

Lemma response_ignores_history_witness :
  let self := Rule.__init__ (H := cpython_order) [password_faq] (4 # 10) in
  ∃ r self',
    Rule.get_response (H := cpython_order) no_percent self "banana" false
    = Some (r, self')
    ∧ fst <$> Rule.get_response (H := cpython_order) no_percent
                (Rule.clear_history self') "reset password" false
      = fst <$> Rule.get_response (H := cpython_order) no_percent
                  self' "reset password" false.
Proof.
  intros self.
  destruct (Rule.get_response (H := cpython_order) no_percent self
              "banana" false) as [[r self']|] eqn:E.
  - exists r, self'. split; [reflexivity|].
    exact (response_ignores_history (H := cpython_order) no_percent self'
             (Rule.clear_history self') "reset password" false
             eq_refl eq_refl eq_refl).
  - vm_compute in E. discriminate E.
Defined.

(** X11. The threshold at its extremes.  With a threshold of 0 or less a
    query that is not blank always gets the answer of the best match, on a
    corpus that is not empty; with a threshold above 1 it always gets the
    fallback text with the questions of the best two matches. *)
Theorem threshold_extremes `{SetOrder} (format_percent : Q → string)
    (self : Rule.t) (query : string) :
  rule_wf self → Rule.faqs self ≠ [] → nonblank query →
  ∃ best score rest self',
    Rule.find_best_match self query 3 = Some ((best, score) :: rest)
    ∧ ((Rule.threshold self <= 0)%Q →
       Rule.get_response format_percent self query false
       = Some (answer best, self'))
    ∧ ((1 < Rule.threshold self)%Q →
       Rule.get_response format_percent self query false
       = Some (Rule._get_fallback_response
                 ((fun m => question m.1)
                    <$> take 2 ((best, score) :: rest)), self')).
Proof.
  intros Hwf Hfaqs Hq.
  destruct (find_best_match_cons self query 3 Hwf Hfaqs)
    as (best & score & rest & Hm); [lia|].
  pose proof (get_response_matched format_percent self query false
                best score rest Hq Hm) as Hr.
  simpl in Hr.
  pose proof (find_best_match_entries self query 3 _ Hm) as Hall.
  apply Forall_cons in Hall as [(_ & _ & Hlo & Hhi) _]. simpl in Hlo, Hhi.
  eexists best, score, rest, _. split; [done|]. split.
  - intros Hth. rewrite Hr.
    assert (E : Qltb score (Rule.threshold self) = false).
    { apply Qltb_ge. by apply (Qle_trans _ 0). }
    by rewrite E.
  - intros Hth. rewrite Hr.
    assert (E : Qltb score (Rule.threshold self) = true).
    { apply Qltb_lt. by apply (Qle_lt_trans _ 1). }
    by rewrite E.
Qed.

Lemma threshold_extremes_witness :
  let self := Rule.__init__ (H := cpython_order) [password_faq] 0 in
  rule_wf self ∧ Rule.faqs self ≠ [] ∧ nonblank "banana"
  ∧ (Rule.threshold self <= 0)%Q
  ∧ ∃ self',
      Rule.get_response (H := cpython_order) no_percent self "banana" false
      = Some ("Click Forgot Password.", self').
Proof.
  intros self.
  assert (H1 : rule_wf self) by apply (__init___wf (H := cpython_order)).
  assert (H2 : Rule.faqs self ≠ []) by discriminate.
  assert (H3 : nonblank "banana") by (vm_compute; discriminate).
  assert (H4 : (Rule.threshold self <= 0)%Q) by apply Qle_refl.
  split; [exact H1|]. split; [exact H2|]. split; [exact H3|].
  split; [exact H4|].
  destruct (threshold_extremes (H := cpython_order) no_percent self
              "banana" H1 H2 H3)
    as (best & score & rest & self' & Hm & Hlow & _).
  exists self'. rewrite (Hlow H4). f_equal. f_equal.
  vm_compute in Hm. by injection Hm as <- _ _.
Defined.

(** ** The semantic engine *)

Section SemanticFacts.

Context `{Embedder}.
Variable format_percent : Q → string.

Lemma nlp_find_best_match_Some (self : NLP.t) (query : string) (top_k : Z) :
  nlp_wf self →
  ∃ scored,
    mapM (NLP.score_entry self (encode query))
      (imap pair (NLP.faq_embeddings self)) = Some scored
    ∧ length scored = length (NLP.faq_embeddings self)
    ∧ NLP.find_best_match self query top_k
      = Some (slice_to (sort_desc snd scored) top_k).
Proof.
  intros Hwf. destruct (nlp_scored self query Hwf) as (scored & Hs & Hlen).
  exists scored. split; [done|]. split; [done|].
  unfold NLP.find_best_match. by rewrite Hs.
Qed.

Lemma nlp_find_best_match_cons (self : NLP.t) (query : string) (top_k : Z) :
  nlp_wf self → NLP.faq_embeddings self ≠ [] → (0 < top_k)%Z →
  ∃ best score rest,
    NLP.find_best_match self query top_k = Some ((best, score) :: rest)
    ∧ ∀ e, e ∈ NLP.faq_embeddings self →
           (_cosine_similarity (encode query) e <= score)%Q.
Proof.
  intros Hwf Hne Hk.
  destruct (nlp_find_best_match_Some self query top_k Hwf)
    as (scored & Hs & Hlen & Hm).
  rewrite Hm.
  destruct (slice_to (sort_desc snd scored) top_k) as [|[best score] rest]
    eqn:E.
  { apply slice_to_pos_nil, sort_desc_nil in E; [|done]. subst scored.
    destruct (NLP.faq_embeddings self); [done|]. discriminate Hlen. }
  exists best, score, rest. split; [done|].
  intros e He. apply list_elem_of_lookup in He as [i Hi].
  destruct (slice_to_take (sort_desc snd scored) top_k) as [n Hn].
  rewrite Hn in E. apply take_cons_head in E as [rest' E].
  apply mapM_Some in Hs.
  assert (Hie : imap pair (NLP.faq_embeddings self) !! i = Some (i, e)).
  { by rewrite list_lookup_imap, Hi. }
  destruct (Forall2_lookup_l _ _ _ _ _ Hs Hie) as (m & Hm' & Hsc).
  unfold NLP.score_entry in Hsc. simpl in Hsc.
  destruct (NLP.faqs self !! i) as [f|]; [|discriminate Hsc].
  injection Hsc as <-.
  pose proof (sort_desc_head_max snd scored (best, score) rest'
                (f, _cosine_similarity (encode query) e) E) as Hle.
  simpl in Hle. apply Hle. by eapply list_elem_of_lookup_2.
Qed.

Lemma nlp_find_best_match_empty (self : NLP.t) (query : string)
    (top_k : Z) :
  NLP.faq_embeddings self = [] →
  NLP.find_best_match self query top_k = Some [].
Proof.
  intros E. unfold NLP.find_best_match. rewrite E. simpl.
  unfold slice_to. destruct (top_k <? 0)%Z; by rewrite take_nil.
Qed.

End SemanticFacts.

(** X12. The semantic engine answers every query that is not blank.  With
    no embedding stored it returns its plain fallback text and records
    nothing.  Otherwise it appends one record, tagged ['semantic'], with
    the answer and the similarity of its best match, whose similarity no
    stored embedding exceeds; the text returned is that answer, or the
    fallback with the questions of the best two matches when the
    similarity is below the threshold. *)
Theorem nlp_get_response_step `{Embedder} (format_percent : Q → string)
    (self : NLP.t) (query : string) :
  nlp_wf self → nonblank query →
  (NLP.faq_embeddings self = [] →
   NLP.get_response format_percent self query false
   = Some (NLP._get_fallback_response [], self))
  ∧ (NLP.faq_embeddings self ≠ [] →
     ∃ best score rest,
       NLP.find_best_match self query 3 = Some ((best, score) :: rest)
       ∧ (∀ e, e ∈ NLP.faq_embeddings self →
               (_cosine_similarity (encode query) e <= score)%Q)
       ∧ NLP.get_response format_percent self query false
         = Some (if Qltb score (NLP.threshold self)
                 then NLP._get_fallback_response
                        ((fun m => question m.1)
                           <$> take 2 ((best, score) :: rest))
                 else answer best,
                 NLP.log self {| i_query := query;
                                 i_response := answer best;
                                 i_score := score;
                                 i_method := Some "semantic" |})).
Proof.
  intros Hwf Hq. split.
  - intros He. unfold NLP.get_response.
    rewrite bool_decide_false by done.
    by rewrite nlp_find_best_match_empty.
  - intros Hne.
    destruct (nlp_find_best_match_cons self query 3 Hwf Hne)
      as (best & score & rest & Hm & Hmax); [lia|].
    exists best, score, rest. split; [done|]. split; [done|].
    unfold NLP.get_response. rewrite bool_decide_false by done.
    rewrite Hm. simpl.
    by destruct (Qltb score (NLP.threshold self)).
Qed.

Lemma nlp_get_response_step_witness :
  let self := NLP.__init__ (H := constant_embedder (1 # 10))
                [password_faq] (5 # 10) in
  nlp_wf self ∧ nonblank "banana"
  ∧ NLP.get_response (H := constant_embedder (1 # 10)) no_percent self
      "banana" false
    = Some (NLP._get_fallback_response ["How do I reset my password?"],
            NLP.log self {| i_query := "banana";
                            i_response := "Click Forgot Password.";
                            i_score := 1 # 10;
                            i_method := Some "semantic" |}).
Proof.
  intros self.
  assert (H1 : nlp_wf self)
    by apply (nlp___init___wf (H := constant_embedder (1 # 10))).
  assert (H2 : nonblank "banana") by (vm_compute; discriminate).
  split; [exact H1|]. split; [exact H2|].
  destruct (proj2 (nlp_get_response_step (H := constant_embedder (1 # 10))
                     no_percent self "banana" H1 H2))
    as (best & score & rest & Hm & _ & Hr); [discriminate|].
  rewrite Hr. vm_compute in Hm. injection Hm as <- <- <-. reflexivity.
Defined.

(** X13. [add_faq_dynamically] on an engine whose embeddings are aligned
    with its corpus keeps them aligned and leaves the history alone, and
    from then on the new entry competes in every ranking with the
    similarity of its question, next to the entries ranked before. *)
Theorem add_faq_dynamically_ranked `{Embedder} (self : NLP.t)
    (new_question new_answer new_category query : string) (top_k : Z) :
  length (NLP.faq_embeddings self) = length (NLP.faqs self) →
  NLP.faq_embeddings self ≠ [] →
  let self' :=
    NLP.add_faq_dynamically self new_question new_answer new_category in
  length (NLP.faq_embeddings self') = length (NLP.faqs self')
  ∧ NLP.conversation_history self' = NLP.conversation_history self
  ∧ ∃ scored,
      NLP.find_best_match self query top_k
      = Some (slice_to (sort_desc snd scored) top_k)
      ∧ NLP.find_best_match self' query top_k
        = Some (slice_to
                  (sort_desc snd
                     (scored
                      ++ [(Faq new_question new_answer new_category,
                           _cosine_similarity (encode query)
                             (encode new_question))]))
                  top_k).
Proof.
  intros Hlen _ self'. split; [|split; [done|]].
  { unfold self', NLP.add_faq_dynamically. simpl.
    rewrite !length_app. simpl. lia. }
  assert (Hwf : nlp_wf self) by (unfold nlp_wf; lia).
  destruct (nlp_find_best_match_Some self query top_k Hwf)
    as (scored & Hs & Hlen' & Hm).
  exists scored. split; [done|].
  unfold NLP.find_best_match.
  assert (Hs' : mapM (NLP.score_entry self' (encode query))
                  (imap pair (NLP.faq_embeddings self'))
                = Some (scored
                        ++ [(Faq new_question new_answer new_category,
                             _cosine_similarity (encode query)
                               (encode new_question))])).
  { apply mapM_Some. unfold self', NLP.add_faq_dynamically. simpl.
    rewrite imap_app. simpl. apply Forall2_app.
    - apply mapM_Some in Hs.
      apply Forall2_same_length_lookup. split; [by eapply Forall2_length|].
      intros i [j e] m Hie Him.
      pose proof (Forall2_lookup_lr _ _ _ _ _ _ Hs Hie Him) as Hsc.
      rewrite list_lookup_imap in Hie.
      destruct (NLP.faq_embeddings self !! i) as [e'|] eqn:Ei;
        [|discriminate Hie].
      injection Hie as <- <-. apply lookup_lt_Some in Ei.
      unfold NLP.score_entry in *. simpl in *.
      rewrite lookup_app_l by lia. exact Hsc.
    - constructor; [|constructor].
      unfold NLP.score_entry. simpl.
      rewrite Nat.add_0_r, Hlen.
      by rewrite lookup_app_r, Nat.sub_diag by lia. }
  by rewrite Hs'.
Qed.

Lemma add_faq_dynamically_ranked_witness :
  let self := NLP.__init__ (H := constant_embedder (1 # 2))
                [password_faq] (5 # 10) in
  let self' := NLP.add_faq_dynamically (H := constant_embedder (1 # 2))
                 self "What are your business hours?" "Nine to five."
                 "general" in
  length (NLP.faq_embeddings self) = length (NLP.faqs self)
  ∧ NLP.faq_embeddings self ≠ []
  ∧ length (NLP.faq_embeddings self') = length (NLP.faqs self')
  ∧ NLP.conversation_history self' = NLP.conversation_history self.
Proof.
  intros self self'.
  assert (H1 : length (NLP.faq_embeddings self) = length (NLP.faqs self))
    by reflexivity.
  assert (H2 : NLP.faq_embeddings self ≠ []) by discriminate.
  split; [exact H1|]. split; [exact H2|].
  destruct (add_faq_dynamically_ranked (H := constant_embedder (1 # 2))
              self "What are your business hours?" "Nine to five."
              "general" "opening times" 3 H1 H2)
    as (Hlen & Hhist & _).
  split; [exact Hlen|exact Hhist].
Defined.

(** ** The arbiter beyond the claims *)

(** X14. The hybrid engine records in its own history only: a response
    leaves both engines it arbitrates between, and the weights, as they
    were, and adds at most one record, whose query is the query asked. *)
Theorem hybrid_get_response_frame `{SetOrder} `{Embedder}
    (format_percent : Q → string) (self self' : Hybrid.t) (query : string)
    (return_confidence : bool) (response : string) :
  Hybrid.get_response format_percent self query return_confidence
  = Some (response, self') →
  Hybrid.rule_bot self' = Hybrid.rule_bot self
  ∧ Hybrid.nlp_bot self' = Hybrid.nlp_bot self
  ∧ Hybrid.rule_weight self' = Hybrid.rule_weight self
  ∧ Hybrid.nlp_weight self' = Hybrid.nlp_weight self
  ∧ ∃ new,
      Hybrid.conversation_history self'
      = Hybrid.conversation_history self ++ new
      ∧ (new = [] ∧ response = Hybrid.no_answer
         ∨ ∃ r, new = [r] ∧ i_query r = query).
Proof.
  unfold Hybrid.get_response.
  destruct (Rule.find_best_match (Hybrid.rule_bot self) query 1)
    as [rule_matches|]; [|done].
  destruct (NLP.find_best_match (Hybrid.nlp_bot self) query 1)
    as [nlp_matches|]; [|done].
  simpl.
  destruct (Hybrid.pick self rule_matches nlp_matches)
    as [[[best final_score] method]|].
  - intros [= <- <-]. repeat (split; [done|]).
    eexists [_]. split; [done|]. right. by eexists.
  - intros [= <- <-]. repeat (split; [done|]).
    exists []. rewrite app_nil_r. split; [done|]. by left.
Qed.

Lemma hybrid_get_response_frame_witness :
  let rule := Rule.__init__ (H := cpython_order) [password_faq] (4 # 10) in
  let nlp := NLP.__init__ (H := constant_embedder (1 # 10))
               [password_faq] (4 # 10) in
  let self := Hybrid.__init__ (H0 := constant_embedder (1 # 10)) rule nlp
                (3 # 10) (7 # 10) in
  ∃ response self',
    Hybrid.get_response (H := cpython_order)
      (H0 := constant_embedder (1 # 10)) no_percent self "banana" false
    = Some (response, self')
    ∧ Hybrid.rule_bot self' = rule ∧ Hybrid.nlp_bot self' = nlp.
Proof.
  intros rule nlp self.
  destruct (Hybrid.get_response (H := cpython_order)
              (H0 := constant_embedder (1 # 10)) no_percent self "banana"
              false) as [[response self']|] eqn:E.
  - exists response, self'. split; [reflexivity|].
    destruct (hybrid_get_response_frame (H := cpython_order)
                (H0 := constant_embedder (1 # 10)) no_percent self self'
                "banana" false response E) as (H1 & H2 & _).
    split; [exact H1|exact H2].
  - vm_compute in E. discriminate E.
Defined.

(** X15. With a semantic candidate the arbiter always answers: on
    well-formed engines, as soon as the semantic engine holds an
    embedding, every query gets the answer of the first lexical or of the
    first semantic match, recorded with that match's own score; there is
    no fallback text, no clarification and no refusal, whatever the scores
    and also for a blank query. *)
Theorem hybrid_always_answers `{SetOrder} `{Embedder}
    (format_percent : Q → string) (self : Hybrid.t) (query : string) :
  rule_wf (Hybrid.rule_bot self) → nlp_wf (Hybrid.nlp_bot self) →
  NLP.faq_embeddings (Hybrid.nlp_bot self) ≠ [] →
  ∃ rule_matches sem sem_score best score method,
    Rule.find_best_match (Hybrid.rule_bot self) query 1 = Some rule_matches
    ∧ NLP.find_best_match (Hybrid.nlp_bot self) query 1
      = Some [(sem, sem_score)]
    ∧ ((method = "semantic" ∧ (best, score) = (sem, sem_score))
       ∨ (method = "rule-based" ∧ head rule_matches = Some (best, score)))
    ∧ Hybrid.get_response format_percent self query false
      = Some (answer best,
              Hybrid.log self {| i_query := query;
                                 i_response := answer best;
                                 i_score := score;
                                 i_method := Some method |}).
Proof.
  intros Hrule Hnlp Hne.
  destruct (find_best_match_Some (Hybrid.rule_bot self) query 1 Hrule)
    as (scored & _ & Hr).
  destruct (nlp_find_best_match_cons (Hybrid.nlp_bot self) query 1 Hnlp Hne)
    as (sem & sem_score & rest & Hn & _); [lia|].
  assert (Hrest : rest = []).
  { pose proof Hn as Hn'. unfold NLP.find_best_match in Hn'.
    destruct (mapM _ _) as [l|]; [|done]. simpl in Hn'.
    injection Hn' as Hn'.
    apply (f_equal length) in Hn'.
    rewrite slice_to_nonneg, length_take in Hn' by lia.
    simpl in Hn'. destruct rest; [done|]. simpl in Hn'.
    destruct (length (sort_desc snd l)); discriminate Hn'. }
  subst rest.
  pose proof (get_response_pick format_percent self query false _ _ Hr Hn)
    as Hresp.
  set (rule_matches := slice_to (sort_desc snd scored) 1) in *.
  unfold Hybrid.pick in Hresp. simpl in Hresp.
  destruct (Qltb (Float.mul sem_score (Hybrid.nlp_weight self))
              (Float.mul (Hybrid.top_score rule_matches)
                 (Hybrid.rule_weight self))
            && Hybrid.nonempty rule_matches) eqn:E.
  - apply andb_prop in E as [_ E].
    destruct rule_matches as [|[lex lex_score] lex_rest] eqn:Erm;
      [discriminate E|].
    simpl in Hresp.
    exists ((lex, lex_score) :: lex_rest), sem, sem_score, lex, lex_score,
      "rule-based".
    split; [done|]. split; [done|]. split; [by right|done].
  - simpl in Hresp.
    exists rule_matches, sem, sem_score, sem, sem_score, "semantic".
    split; [done|]. split; [done|]. split; [by left|done].
Qed.

Lemma hybrid_always_answers_witness :
  let rule := Rule.__init__ (H := cpython_order) [password_faq] (4 # 10) in
  let nlp := NLP.__init__ (H := constant_embedder (1 # 10))
               [password_faq] (4 # 10) in
  let self := Hybrid.__init__ (H0 := constant_embedder (1 # 10)) rule nlp
                (3 # 10) (7 # 10) in
  rule_wf rule ∧ nlp_wf nlp ∧ NLP.faq_embeddings nlp ≠ []
  ∧ ∃ self',
      Hybrid.get_response (H := cpython_order)
        (H0 := constant_embedder (1 # 10)) no_percent self "   " false
      = Some ("Click Forgot Password.", self').
Proof.
  intros rule nlp self.
  assert (H1 : rule_wf rule) by apply (__init___wf (H := cpython_order)).
  assert (H2 : nlp_wf nlp)
    by apply (nlp___init___wf (H := constant_embedder (1 # 10))).
  assert (H3 : NLP.faq_embeddings nlp ≠ []) by discriminate.
  split; [exact H1|]. split; [exact H2|]. split; [exact H3|].
  destruct (hybrid_always_answers (H := cpython_order)
              (H0 := constant_embedder (1 # 10)) no_percent self "   "
              H1 H2 H3)
    as (rm & sem & ss & best & score & method & Hr & Hn & Hcase & Hresp).
  eexists. rewrite Hresp. f_equal. f_equal.
  vm_compute in Hr, Hn. injection Hn as Hs1 Hs2. injection Hr as Hr.
  subst rm sem ss.
  destruct Hcase as [[_ Hb]|[_ Hb]]; injection Hb as Hb1 Hb2;
    subst best; reflexivity.
Defined.

(** X16. When only one side has a candidate.  A semantic candidate alone
    is picked whatever its score and the weights.  A lexical candidate
    alone is picked exactly when its weighted score, the float that the
    code computes, is positive, and refused otherwise: it is refused
    whenever the exact product is at most 0 and picked whenever the exact
    product is at least [2^-1074], the least positive float.  With no
    candidate at all the arbiter refuses and records nothing. *)
Theorem arbiter_one_sided `{SetOrder} `{Embedder}
    (format_percent : Q → string) (self : Hybrid.t) (query : string)
    (rule_matches nlp_matches : list (faq * Q)) :
  Rule.find_best_match (Hybrid.rule_bot self) query 1 = Some rule_matches →
  NLP.find_best_match (Hybrid.nlp_bot self) query 1 = Some nlp_matches →
  let answered (m : faq * Q) (method : string) :=
    Hybrid.get_response format_percent self query false
    = Some (answer m.1,
            Hybrid.log self {| i_query := query;
                               i_response := answer m.1;
                               i_score := m.2;
                               i_method := Some method |}) in
  let refused :=
    Hybrid.get_response format_percent self query false
    = Some (Hybrid.no_answer, self) in
  (∀ sem rest, rule_matches = [] → nlp_matches = sem :: rest →
               answered sem "semantic")
  ∧ (∀ lex rest, rule_matches = lex :: rest → nlp_matches = [] →
                 ((0 < Float.mul lex.2 (Hybrid.rule_weight self))%Q →
                  answered lex "rule-based")
                 ∧ ((Float.mul lex.2 (Hybrid.rule_weight self) <= 0)%Q →
                    refused)
                 ∧ ((Float.two_pow (-1074)
                     <= lex.2 * Hybrid.rule_weight self)%Q →
                    answered lex "rule-based")
                 ∧ ((lex.2 * Hybrid.rule_weight self <= 0)%Q → refused))
  ∧ (rule_matches = [] → nlp_matches = [] → refused).
Proof.
  intros Hr Hn answered refused. unfold answered, refused.
  rewrite (get_response_pick format_percent self query false _ _ Hr Hn).
  split; [|split].
  - intros [sem sem_score] rest -> ->. unfold Hybrid.pick.
    change (Hybrid.nonempty []) with false. by rewrite andb_false_r.
  - intros [lex lex_score] rest -> ->. simpl.
    assert (Hpos : (0 < Float.mul lex_score (Hybrid.rule_weight self))%Q →
              Hybrid.pick self ((lex, lex_score) :: rest) []
              = Some (lex, lex_score, "rule-based")).
    { intros Hw. rewrite pick_rule; [done|].
      change (Hybrid.top_score []) with 0%Q. by rewrite mul_0_l. }
    assert (Hneg : (Float.mul lex_score (Hybrid.rule_weight self) <= 0)%Q →
              Hybrid.pick self ((lex, lex_score) :: rest) [] = None).
    { intros Hw. unfold Hybrid.pick.
      change (Hybrid.top_score []) with 0%Q.
      change (Hybrid.top_score ((lex, lex_score) :: rest)) with lex_score.
      rewrite mul_0_l.
      assert (E : Qltb 0 (Float.mul lex_score (Hybrid.rule_weight self))
                  = false) by (by apply Qltb_ge).
      by rewrite E. }
    destruct (round_sign (lex_score * Hybrid.rule_weight self))
      as (Hs1 & _ & Hs3).
    split; [|split; [|split]]; intros Hw.
    + by rewrite Hpos.
    + by rewrite Hneg.
    + rewrite Hpos; [done|]. by apply Hs3.
    + rewrite Hneg; [done|]. by apply Hs1.
  - intros -> ->. unfold Hybrid.pick.
    change (Hybrid.nonempty []) with false. by rewrite andb_false_r.
Qed.

Lemma arbiter_one_sided_witness :
  let rule := Rule.__init__ (H := cpython_order) [] (4 # 10) in
  let nlp := NLP.__init__ (H := constant_embedder 0)
               [password_faq] (4 # 10) in
  let self := Hybrid.__init__ (H0 := constant_embedder 0) rule nlp
                (3 # 10) (7 # 10) in
  Rule.find_best_match (H := cpython_order) rule "banana" 1 = Some []
  ∧ NLP.find_best_match (H := constant_embedder 0) nlp "banana" 1
    = Some [(password_faq, 0%Q)]
  ∧ Hybrid.get_response (H := cpython_order) (H0 := constant_embedder 0)
      no_percent self "banana" false
    = Some ("Click Forgot Password.",
            Hybrid.log self {| i_query := "banana";
                               i_response := "Click Forgot Password.";
                               i_score := 0;
                               i_method := Some "semantic" |}).
Proof.
  intros rule nlp self.
  assert (H1 : Rule.find_best_match (H := cpython_order) rule "banana" 1
               = Some []) by reflexivity.
  assert (H2 : NLP.find_best_match (H := constant_embedder 0) nlp "banana" 1
               = Some [(password_faq, 0%Q)]) by reflexivity.
  split; [exact H1|]. split; [exact H2|].
  exact (proj1 (arbiter_one_sided (H := cpython_order)
                  (H0 := constant_embedder 0) no_percent self "banana"
                  [] [(password_faq, 0%Q)] H1 H2)
           (password_faq, 0%Q) [] eq_refl eq_refl).
Defined.

(** * Letter case *)

Lemma lower_char_idempotent (c : ascii) :
  Char.lower (Char.lower c) = Char.lower c.
Proof. destruct c as [[] [] [] [] [] [] [] []]; reflexivity. Qed.

Lemma Str_lower_idempotent (s : string) :
  Str.lower (Str.lower s) = Str.lower s.
Proof.
  unfold Str.lower. induction s as [|c s IH]; simpl; [done|].
  by rewrite lower_char_idempotent, IH.
Qed.

Lemma _preprocess_text_lower (text : string) :
  _preprocess_text (Str.lower text) = _preprocess_text text.
Proof. unfold _preprocess_text. by rewrite Str_lower_idempotent. Qed.

Lemma mapM_ext_option {A B} (f g : A → option B) (l : list A) :
  (∀ x, f x = g x) → mapM f l = mapM g l.
Proof.
  intros Hfg. induction l as [|x l IH]; simpl; [done|].
  by rewrite Hfg, IH.
Qed.

(** X17. Matching ignores letter case: two queries that differ only in
    the case of their letters have the same normalized text and keywords,
    the same score against every question, and the same ranking; and a
    question scores the same in whatever case it is written. *)
Theorem ranking_case_insensitive `{SetOrder} (self : Rule.t)
    (query1 query2 : string) (top_k : Z) :
  Str.lower query1 = Str.lower query2 →
  _preprocess_text query1 = _preprocess_text query2
  ∧ _extract_keywords query1 = _extract_keywords query2
  ∧ (∀ text, combined_score query1 text = combined_score query2 text)
  ∧ (∀ text, combined_score text query1 = combined_score text query2)
  ∧ Rule.find_best_match self query1 top_k
    = Rule.find_best_match self query2 top_k.
Proof.
  intros Hcase.
  assert (Hp : _preprocess_text query1 = _preprocess_text query2).
  { unfold _preprocess_text. by rewrite Hcase. }
  assert (Hk : _extract_keywords query1 = _extract_keywords query2).
  { unfold _extract_keywords. by rewrite Hp. }
  assert (Hs : ∀ text, combined_score query1 text
                       = combined_score query2 text).
  { intros text.
    unfold combined_score, _keyword_match_score, _calculate_similarity.
    by rewrite Hk, Hp. }
  split; [done|]. split; [done|]. split; [done|]. split.
  - intros text.
    unfold combined_score, _keyword_match_score, _calculate_similarity.
    by rewrite Hk, Hp.
  - unfold Rule.find_best_match.
    assert (Hc : Rule._get_candidate_faqs self query1
                 = Rule._get_candidate_faqs self query2).
    { unfold Rule._get_candidate_faqs. by rewrite Hk. }
    rewrite Hc.
    rewrite (mapM_ext_option (Rule.score_candidate self query1)
               (Rule.score_candidate self query2)); [done|].
    intros idx. unfold Rule.score_candidate.
    destruct (Rule.faqs self !! idx) as [f|]; simpl; [|done].
    by rewrite Hs.
Qed.

Lemma ranking_case_insensitive_witness :
  let self := Rule.__init__ (H := cpython_order) nine_faqs (4 # 10) in
  Str.lower "RESET my Password" = Str.lower "reset MY password"
  ∧ Rule.find_best_match (H := cpython_order) self "RESET my Password" 3
    = Rule.find_best_match (H := cpython_order) self "reset MY password" 3.
Proof.
  intros self.
  assert (H1 : Str.lower "RESET my Password" = Str.lower "reset MY password")
    by reflexivity.
  split; [exact H1|].
  exact (proj2 (proj2 (proj2 (proj2
    (ranking_case_insensitive (H := cpython_order) self
       "RESET my Password" "reset MY password" 3 H1))))).
Defined.

(** * The substring bot of [rule_bot.py] *)

Lemma startswith_spec (prefix s : string) :
  SimpleBot.startswith prefix s = true ↔ ∃ post, s = prefix +:+ post.
Proof.
  revert s. induction prefix as [|a p IH]; intros s; simpl.
  - split; [by exists s|done].
  - destruct s as [|b s]; simpl.
    + split; [done|]. by intros [post [=]].
    + rewrite andb_true_iff, bool_decide_eq_true, IH. split.
      * intros [<- [post ->]]. by exists post.
      * intros [post [= <- ->]]. split; [done|]. by exists post.
Qed.

(** [contains] is the substring test. *)
Lemma contains_spec (needle s : string) :
  SimpleBot.contains needle s = true
  ↔ ∃ pre post, s = pre +:+ needle +:+ post.
Proof.
  induction s as [|b s IH].
  - simpl. rewrite orb_false_r, startswith_spec. split.
    + intros [post E]. by exists EmptyString, post.
    + intros ([|c pre] & post & E); [by exists post|discriminate E].
  - simpl. rewrite orb_true_iff, startswith_spec, IH. split.
    + intros [[post E]|(pre & post & E)].
      * by exists EmptyString, post.
      * exists (String b pre), post. simpl. by rewrite E.
    + intros ([|c pre] & post & E).
      * left. by exists post.
      * right. change (String b s = String c (pre +:+ needle +:+ post)) in E.
        injection E as _ E. exists pre. exists post. exact E.
Qed.

Lemma find_first {A} (p : A → bool) (l : list A) (i : nat) (x : A) :
  l !! i = Some x → p x = true →
  ∃ j y, j ≤ i ∧ l !! j = Some y ∧ p y = true
         ∧ (∀ k z, k < j → l !! k = Some z → p z = false)
         ∧ List.find p l = Some y.
Proof.
  revert i. induction l as [|a l IH]; intros i Hi Hx; [done|].
  simpl. destruct (p a) eqn:Ea.
  - exists 0, a. split; [lia|]. split; [done|]. split; [done|].
    split; [|done]. intros k z Hk. lia.
  - destruct i as [|i]; simpl in Hi; [simplify_eq; congruence|].
    destruct (IH i Hi Hx) as (j & y & Hj & Hy & Hp & Hfirst & Hfind).
    exists (S j), y. split; [lia|]. split; [done|]. split; [done|].
    split; [|done]. intros [|k] z Hk Hz; simpl in Hz.
    + by simplify_eq.
    + apply (Hfirst k z); [lia|done].
Qed.

(** The first entry whose lowered question occurs in the lowered input
    gives the reply. *)
Lemma simple_bot_hit (faqs : list faq) (user_input : string) (i : nat)
    (f : faq) (pre post : string) :
  faqs !! i = Some f →
  Str.lower user_input = pre +:+ Str.lower (question f) +:+ post →
  ∃ j g, j ≤ i ∧ faqs !! j = Some g
         ∧ SimpleBot.hit (Str.lower user_input) g = true
         ∧ (∀ k h, k < j → faqs !! k = Some h →
                   SimpleBot.hit (Str.lower user_input) h = false)
         ∧ SimpleBot.get_response faqs user_input = answer g.
Proof.
  intros Hi Hsub.
  assert (Hhit : SimpleBot.hit (Str.lower user_input) f = true).
  { apply contains_spec. exists pre. by exists post. }
  destruct (find_first (SimpleBot.hit (Str.lower user_input)) faqs i f
              Hi Hhit) as (j & g & Hj & Hg & Hp & Hfirst & Hfind).
  exists j, g. split; [done|]. split; [done|]. split; [done|].
  split; [done|]. unfold SimpleBot.get_response. by rewrite Hfind.
Qed.

(** X18. The substring bot answers with the first entry whose question
    occurs in the input, letter case ignored: when the lowered question of
    entry [i] is a substring of the lowered input, the reply is the answer
    of an entry at some index [j ≤ i] whose lowered question occurs too,
    no entry before [j] having that property; when no lowered question
    occurs in the lowered input the reply is the apology. *)
Theorem simple_bot_first_match (faqs : list faq) (user_input : string) :
  (∀ i f pre post,
      faqs !! i = Some f →
      Str.lower user_input = pre +:+ Str.lower (question f) +:+ post →
      ∃ j g, j ≤ i ∧ faqs !! j = Some g
             ∧ SimpleBot.hit (Str.lower user_input) g = true
             ∧ (∀ k h, k < j → faqs !! k = Some h →
                       SimpleBot.hit (Str.lower user_input) h = false)
             ∧ SimpleBot.get_response faqs user_input = answer g)
  ∧ ((∀ f, f ∈ faqs →
           ¬ ∃ pre post,
               Str.lower user_input
               = pre +:+ Str.lower (question f) +:+ post) →
     SimpleBot.get_response faqs user_input = SimpleBot.apology).
Proof.
  split.
  - intros i f pre post. apply simple_bot_hit.
  - intros Hnone. unfold SimpleBot.get_response.
    destruct (List.find (SimpleBot.hit (Str.lower user_input)) faqs)
      as [f|] eqn:E; [|done].
    apply List.find_some in E as [Hin Hhit].
    destruct (Hnone f); [by apply list_elem_of_In|].
    by apply contains_spec.
Qed.

Lemma simple_bot_first_match_witness :
  [hours_faq; password_faq] !! 1 = Some password_faq
  ∧ Str.lower "Please: how do I RESET my password? Thanks"
    = "please: " +:+ Str.lower (question password_faq) +:+ " thanks"
  ∧ SimpleBot.get_response [hours_faq; password_faq]
      "Please: how do I RESET my password? Thanks"
    = "Click Forgot Password.".
Proof.
  assert (H1 : [hours_faq; password_faq] !! 1 = Some password_faq)
    by reflexivity.
  assert (H2 : Str.lower "Please: how do I RESET my password? Thanks"
               = "please: " +:+ Str.lower (question password_faq)
                 +:+ " thanks") by reflexivity.
  split; [exact H1|]. split; [exact H2|].
  destruct (proj1 (simple_bot_first_match [hours_faq; password_faq]
                     "Please: how do I RESET my password? Thanks")
              1 password_faq "please: " " thanks" H1 H2)
    as (j & g & Hj & Hg & Hhit & _ & ->).
  destruct j as [|[|j]]; simpl in Hg; [|by simplify_eq|lia].
  injection Hg as <-. vm_compute in Hhit. discriminate Hhit.
Defined.

(** X19. An entry with an empty question matches every input: from the
    first such entry on nothing is ever reached, and the bot never
    apologizes; the reply is always the answer of an entry at or before
    it. *)
Theorem simple_bot_empty_question (faqs : list faq) (i : nat) (f : faq)
    (user_input : string) :
  faqs !! i = Some f → question f = EmptyString →
  ∃ j g, j ≤ i ∧ faqs !! j = Some g
         ∧ SimpleBot.get_response faqs user_input = answer g.
Proof.
  intros Hi Hq.
  destruct (simple_bot_hit faqs user_input i f
              EmptyString (Str.lower user_input) Hi)
    as (j & g & Hj & Hg & _ & _ & Hr).
  { by rewrite Hq. }
  by exists j, g.
Qed.

Lemma simple_bot_empty_question_witness :
  [Faq EmptyString "Anything." "general"; password_faq] !! 0
  = Some (Faq EmptyString "Anything." "general")
  ∧ ∃ j g, j ≤ 0
      ∧ [Faq EmptyString "Anything." "general"; password_faq] !! j = Some g
      ∧ SimpleBot.get_response
          [Faq EmptyString "Anything." "general"; password_faq]
          "how do I reset my password?"
        = answer g.
Proof.
  assert (H1 : [Faq EmptyString "Anything." "general"; password_faq] !! 0
               = Some (Faq EmptyString "Anything." "general"))
    by reflexivity.
  split; [exact H1|].
  exact (simple_bot_empty_question
           [Faq EmptyString "Anything." "general"; password_faq] 0 _
           "how do I reset my password?" H1 eq_refl).
Defined.

(** * The chat log *)

(** X20. [get_logs] returns a suffix of the log.  A positive [limit]
    gives the last [limit] entries, or all of them when there are fewer;
    [limit = 0] gives every entry, not none; a negative [limit] drops the
    first [-limit] entries; a missing file gives the empty list. *)
Theorem get_logs_suffix (logs : list ChatLogger.entry) (limit : Z) :
  ChatLogger.get_logs None limit = []
  ∧ ChatLogger.get_logs (Some logs) limit `suffix_of` logs
  ∧ ((0 < limit)%Z →
     ChatLogger.get_logs (Some logs) limit
     = drop (length logs - Z.to_nat limit) logs
     ∧ length (ChatLogger.get_logs (Some logs) limit)
       = Z.to_nat limit `min` length logs)
  ∧ (limit = 0%Z → ChatLogger.get_logs (Some logs) limit = logs)
  ∧ ((limit < 0)%Z →
     ChatLogger.get_logs (Some logs) limit = drop (Z.to_nat (- limit)) logs).
Proof.
  split; [done|]. split; [|split; [|split]].
  - unfold ChatLogger.get_logs, ChatLogger.slice_from.
    destruct (- limit <? 0)%Z; apply suffix_drop.
  - intros Hpos. unfold ChatLogger.get_logs, ChatLogger.slice_from.
    rewrite (proj2 (Z.ltb_lt (- limit) 0)) by lia.
    assert (E : Z.to_nat (Z.of_nat (length logs) + - limit)
                = length logs - Z.to_nat limit) by lia.
    rewrite E. split; [done|]. rewrite length_drop. lia.
  - intros ->. done.
  - intros Hneg. unfold ChatLogger.get_logs, ChatLogger.slice_from.
    by rewrite (proj2 (Z.ltb_ge (- limit) 0)) by lia.
Qed.

Lemma get_logs_suffix_witness :
  (0 < 2)%Z
  ∧ ChatLogger.get_logs
      (Some [ChatLogger.Entry "t1" "s" "a" "r" 1 "rule" "general";
             ChatLogger.Entry "t2" "s" "b" "r" 0 "rule" "general";
             ChatLogger.Entry "t3" "s" "c" "r" 1 "rule" "general"]) 2
    = [ChatLogger.Entry "t2" "s" "b" "r" 0 "rule" "general";
       ChatLogger.Entry "t3" "s" "c" "r" 1 "rule" "general"].
Proof.
  assert (H1 : (0 < 2)%Z) by lia.
  split; [exact H1|].
  exact (proj1 (proj1 (proj2 (proj2 (get_logs_suffix
    [ChatLogger.Entry "t1" "s" "a" "r" 1 "rule" "general";
     ChatLogger.Entry "t2" "s" "b" "r" 0 "rule" "general";
     ChatLogger.Entry "t3" "s" "c" "r" 1 "rule" "general"] 2))) H1)).
Defined.

(** ** Counting with a dictionary *)

Lemma get_bump (counts : list (string * nat)) (key k : string) :
  ChatLogger.get (ChatLogger.bump counts key) k
  = ChatLogger.get counts k + (if decide (key = k) then 1 else 0).
Proof.
  induction counts as [|[k' n] counts IH]; simpl.
  - repeat case_decide; done.
  - destruct (decide (k' = key)) as [->|Hne]; simpl.
    + repeat case_decide; simplify_eq; lia.
    + rewrite IH. repeat case_decide; simplify_eq; lia.
Qed.

Lemma sum_bump (counts : list (string * nat)) (key : string) :
  sum_list_with snd (ChatLogger.bump counts key)
  = S (sum_list_with snd counts).
Proof.
  induction counts as [|[k' n] counts IH]; simpl; [done|].
  destruct (decide (k' = key)); simpl; [done|]. rewrite IH. lia.
Qed.

Lemma keys_bump (counts : list (string * nat)) (key : string) :
  (key ∈ counts.*1 → (ChatLogger.bump counts key).*1 = counts.*1)
  ∧ (key ∉ counts.*1 → (ChatLogger.bump counts key).*1 = counts.*1 ++ [key]).
Proof.
  induction counts as [|[k' n] counts [IH1 IH2]].
  - split; [by intros ?%elem_of_nil|done].
  - cbn [ChatLogger.bump]. rewrite fmap_cons. cbn [fst].
    destruct (decide (k' = key)) as [->|Hne]; rewrite fmap_cons; cbn [fst].
    + split; [done|]. intros Hnin. destruct Hnin. left.
    + split.
      * intros [?|Hin]%elem_of_cons; [done|]. by rewrite IH1.
      * intros Hnin. rewrite IH2; [done|]. intros Hin. apply Hnin.
        by right.
Qed.

Lemma bump_ok (counts : list (string * nat)) (key : string) :
  ChatLogger.table_ok counts → ChatLogger.table_ok (ChatLogger.bump counts key).
Proof.
  intros [Hnd Hpos]. split.
  - destruct (keys_bump counts key) as [H1 H2].
    destruct (decide (key ∈ counts.*1)) as [E|E]; [by rewrite H1|].
    rewrite H2 by done.
    apply NoDup_app. split; [done|]. split; [|apply NoDup_singleton].
    intros x Hx ->%list_elem_of_singleton. done.
  - clear Hnd. induction counts as [|[k' n] counts IH]; simpl.
    + repeat constructor.
    + apply Forall_cons in Hpos as [Hn Hpos].
      destruct (decide (k' = key)); constructor; simpl in *;
        try lia; try done. by apply IH.
Qed.

Lemma table_get (counts : list (string * nat)) (k : string) (n : nat) :
  ChatLogger.table_ok counts →
  (k, n) ∈ counts ↔ 0 < n ∧ ChatLogger.get counts k = n.
Proof.
  intros [Hnd Hpos].
  induction counts as [|[k' n'] counts IH]; simpl.
  - split; [by intros ?%elem_of_nil|lia].
  - apply NoDup_cons in Hnd as [Hk' Hnd].
    apply Forall_cons in Hpos as [Hn' Hpos]. simpl in *.
    rewrite elem_of_cons, (IH Hnd Hpos).
    destruct (decide (k' = k)) as [->|Hne].
    + split.
      * intros [Heq|[Hn Hget]]; [by simplify_eq|].
        exfalso. apply Hk'.
        assert (Hin : (k, n) ∈ counts) by (by apply (IH Hnd Hpos)).
        apply list_elem_of_fmap. by exists (k, n).
      * intros [Hn <-]. by left.
    + split.
      * intros [Heq|?]; [by simplify_eq|done].
      * intros ?. by right.
Qed.

Lemma tally_from (counts : list (string * nat)) (keys : list string) :
  ChatLogger.table_ok counts →
  ChatLogger.table_ok (foldl ChatLogger.bump counts keys)
  ∧ sum_list_with snd (foldl ChatLogger.bump counts keys)
    = sum_list_with snd counts + length keys
  ∧ ∀ k, ChatLogger.get (foldl ChatLogger.bump counts keys) k
         = ChatLogger.get counts k + ChatLogger.occurrences k keys.
Proof.
  revert counts. induction keys as [|key keys IH]; intros counts Hok; simpl.
  - split; [done|]. split; [lia|]. intros k.
    unfold ChatLogger.occurrences. simpl. lia.
  - destruct (IH _ (bump_ok counts key Hok)) as (H1 & H2 & H3).
    split; [done|]. split.
    + rewrite H2, sum_bump. lia.
    + intros k. rewrite H3, get_bump. unfold ChatLogger.occurrences.
      rewrite filter_cons. repeat case_decide; simplify_eq; simpl; lia.
Qed.

(** What [tally] computes. *)
Lemma tally_spec (keys : list string) :
  NoDup (ChatLogger.tally keys).*1
  ∧ sum_list_with snd (ChatLogger.tally keys) = length keys
  ∧ ∀ k n, (k, n) ∈ ChatLogger.tally keys
           ↔ 0 < n ∧ n = ChatLogger.occurrences k keys.
Proof.
  unfold ChatLogger.tally.
  assert (Hok : ChatLogger.table_ok []) by (split; constructor).
  destruct (tally_from [] keys Hok) as ([Hnd Hpos] & Hsum & Hget).
  split; [done|]. split; [by rewrite Hsum|].
  intros k n. rewrite (table_get _ k n (conj Hnd Hpos)), Hget. simpl.
  split; intros [? ?]; split; done.
Qed.

(** ** The analytics report *)

Lemma get_logs_10000 (file : option (list ChatLogger.entry)) :
  (Z.of_nat (length (ChatLogger.get_logs file 10000)) ≤ 10000)%Z.
Proof.
  destruct file as [logs|]; [|simpl; lia].
  unfold ChatLogger.get_logs, ChatLogger.slice_from.
  destruct (Z.opp 10000 <? 0)%Z eqn:E; [|apply Z.ltb_ge in E; lia].
  rewrite length_drop. lia.
Qed.

Lemma size_list_to_set_le (l : list string) :
  size (list_to_set l : gset string) ≤ length l.
Proof.
  induction l as [|x l IH].
  { change (list_to_set [] : gset string) with (∅ : gset string).
    by rewrite size_empty. }
  change (list_to_set (x :: l) : gset string)
    with ({[x]} ∪ list_to_set l : gset string).
  rewrite size_union_alt, size_singleton. simpl.
  assert (size ((list_to_set l : gset string) ∖ {[x]})
          ≤ size (list_to_set l : gset string)).
  { apply subseteq_size. set_solver. }
  lia.
Qed.

Lemma size_list_to_set_pos (x : string) (l : list string) :
  0 < size (list_to_set (x :: l) : gset string).
Proof.
  assert (size (list_to_set (x :: l) : gset string) ≠ 0); [|lia].
  apply size_non_empty_iff. intros E.
  assert (Hx : x ∈ (list_to_set (x :: l) : gset string)) by set_solver.
  by rewrite E in Hx.
Qed.

(** X21. The counts of the analytics report.  Over the entries read (at
    most the last 10000, and at least one), the counts per method and per
    category each add up to the number of interactions; every method or
    category listed is listed once, with exactly the number of entries
    that carry it, which is positive; and there are between one and
    [total] sessions. *)
Theorem get_analytics_counts (file : option (list ChatLogger.entry))
    (a : ChatLogger.analytics) :
  ChatLogger.get_analytics file = Some a →
  let logs := ChatLogger.get_logs file 10000 in
  ChatLogger.total_interactions a = length logs
  ∧ (0 < Z.of_nat (ChatLogger.total_interactions a) ≤ 10000)%Z
  ∧ sum_list_with snd (ChatLogger.methods_used a)
    = ChatLogger.total_interactions a
  ∧ sum_list_with snd (ChatLogger.categories a)
    = ChatLogger.total_interactions a
  ∧ NoDup (ChatLogger.methods_used a).*1
  ∧ NoDup (ChatLogger.categories a).*1
  ∧ (∀ m n, (m, n) ∈ ChatLogger.methods_used a
            ↔ 0 < n
              ∧ n = ChatLogger.occurrences m (ChatLogger.method <$> logs))
  ∧ (∀ c n, (c, n) ∈ ChatLogger.categories a
            ↔ 0 < n
              ∧ n = ChatLogger.occurrences c (ChatLogger.category <$> logs))
  ∧ 0 < ChatLogger.session_count a ≤ ChatLogger.total_interactions a.
Proof.
  unfold ChatLogger.get_analytics.
  pose proof (get_logs_10000 file) as Hmax.
  destruct (ChatLogger.get_logs file 10000) as [|e logs] eqn:E; [done|].
  intros Ha. cbv beta iota zeta in Ha. apply (inj Some) in Ha. subst a.
  cbn [ChatLogger.total_interactions ChatLogger.methods_used
       ChatLogger.categories ChatLogger.session_count].
  cbv zeta. remember (e :: logs) as all eqn:Hall.
  destruct (tally_spec (ChatLogger.method <$> all)) as (Hm1 & Hm2 & Hm3).
  destruct (tally_spec (ChatLogger.category <$> all)) as (Hc1 & Hc2 & Hc3).
  rewrite length_fmap in Hm2, Hc2.
  assert (Hlen : 0 < length all) by (rewrite Hall; simpl; lia).
  split; [done|]. split; [lia|].
  split; [done|]. split; [done|]. split; [done|]. split; [done|].
  split; [done|]. split; [done|].
  split.
  - rewrite Hall. apply size_list_to_set_pos.
  - etrans; [apply size_list_to_set_le|]. by rewrite length_fmap.
Qed.

Lemma get_analytics_counts_witness :
  let file :=
    Some [ChatLogger.Entry "t1" "s1" "Hours?" "r" 1 "rule" "general";
          ChatLogger.Entry "t2" "s1" "hours?" "r" 0 "semantic" "general";
          ChatLogger.Entry "t3" "s2" "Reset" "r" 1 "rule" "account"] in
  ∃ a, ChatLogger.get_analytics file = Some a
       ∧ sum_list_with snd (ChatLogger.methods_used a) = 3.
Proof.
  intros file.
  destruct (ChatLogger.get_analytics file) as [a|] eqn:E.
  - exists a. split; [reflexivity|].
    destruct (get_analytics_counts file a E) as (Ht & _ & Hm & _).
    rewrite Hm, Ht. reflexivity.
  - vm_compute in E. discriminate E.
Defined.

Lemma foldl_Qplus_bounds (l : list Q) (acc : Q) :
  Forall (fun q => (0 <= q <= 1)%Q) l →
  (acc <= foldl Qplus acc l)%Q
  ∧ (foldl Qplus acc l <= acc + inject_Z (Z.of_nat (length l)))%Q.
Proof.
  revert acc. induction l as [|q l IH]; intros acc Hall; simpl.
  - split; [apply Qle_refl|].
    change (inject_Z (Z.of_nat 0)) with 0%Q. rewrite Qplus_0_r.
    apply Qle_refl.
  - apply Forall_cons in Hall as [[Hq0 Hq1] Hall].
    destruct (IH (acc + q)%Q Hall) as [H1 H2]. split.
    + apply (Qle_trans _ (acc + q)); [lra|done].
    + apply (Qle_trans _ _ _ H2).
      rewrite Nat2Z.inj_succ, <- Z.add_1_r, inject_Z_plus.
      change (inject_Z 1) with 1%Q. lra.
Qed.

(** X22. The rates of the analytics report.  The number of
    low-confidence interactions is the number of entries that
    [get_unanswered_queries] returns for the threshold 0.5, it does not
    exceed the total, and the percentage lies between 0 and 100; when
    every logged score lies in [0,1], so does the average confidence. *)
Theorem get_analytics_rates (file : option (list ChatLogger.entry))
    (a : ChatLogger.analytics) :
  ChatLogger.get_analytics file = Some a →
  ChatLogger.low_confidence_count a
  = length (ChatLogger.get_unanswered_queries file (5 # 10))
  ∧ ChatLogger.low_confidence_count a ≤ ChatLogger.total_interactions a
  ∧ (0 <= ChatLogger.low_confidence_percentage a <= 100)%Q
  ∧ (Forall (fun log => (0 <= ChatLogger.score log <= 1)%Q)
       (ChatLogger.get_logs file 10000) →
     (0 <= ChatLogger.average_confidence a <= 1)%Q).
Proof.
  unfold ChatLogger.get_analytics, ChatLogger.get_unanswered_queries.
  destruct (ChatLogger.get_logs file 10000) as [|e logs] eqn:E; [done|].
  intros Ha. cbv beta iota zeta in Ha. apply (inj Some) in Ha. subst a.
  cbn [ChatLogger.total_interactions ChatLogger.low_confidence_count
       ChatLogger.low_confidence_percentage ChatLogger.average_confidence].
  set (all := e :: logs) in *.
  set (low := filter (fun log => (ChatLogger.score log < 5 # 10)%Q) all).
  assert (Hlow : length low ≤ length all) by apply length_filter.
  assert (Hpos : (0 < inject_Z (Z.of_nat (length all)))%Q).
  { rewrite <- (Zlt_Qlt 0). simpl. lia. }
  split; [done|]. split; [done|]. split.
  - assert (H0 : (0 <= inject_Z (Z.of_nat (length low))
                       / inject_Z (Z.of_nat (length all)))%Q).
    { apply Qle_shift_div_l; [done|]. rewrite Qmult_0_l.
      rewrite <- (Zle_Qle 0). lia. }
    assert (H1 : (inject_Z (Z.of_nat (length low))
                  / inject_Z (Z.of_nat (length all)) <= 1)%Q).
    { apply Qle_shift_div_r; [done|]. rewrite Qmult_1_l.
      rewrite <- Zle_Qle. lia. }
    remember (inject_Z (Z.of_nat (length low))
              / inject_Z (Z.of_nat (length all)))%Q as r.
    split; lra.
  - intros Hall.
    destruct (foldl_Qplus_bounds (ChatLogger.score <$> all) 0) as [H0 H1].
    { apply Forall_fmap. eapply Forall_impl; [apply Hall|]. done. }
    rewrite length_fmap in H1. split.
    + apply Qle_shift_div_l; [done|]. by rewrite Qmult_0_l.
    + apply Qle_shift_div_r; [done|]. rewrite Qmult_1_l.
      by rewrite Qplus_0_l in H1.
Qed.

Lemma get_analytics_rates_witness :
  let file :=
    Some [ChatLogger.Entry "t1" "s1" "Hours?" "r" 1 "rule" "general";
          ChatLogger.Entry "t2" "s1" "hours?" "r" 0 "semantic" "general";
          ChatLogger.Entry "t3" "s2" "Reset" "r" 1 "rule" "account"] in
  ∃ a, ChatLogger.get_analytics file = Some a
       ∧ ChatLogger.low_confidence_count a = 1.
Proof.
  intros file.
  destruct (ChatLogger.get_analytics file) as [a|] eqn:E.
  - exists a. split; [reflexivity|].
    rewrite (proj1 (get_analytics_rates file a E)). reflexivity.
  - vm_compute in E. discriminate E.
Defined.


